(** * amcrest.event: the event-stream decoder

    A shallow embedding of [src/amcrest/event.py]: the frame reader
    [_event_lines], the framing loop [Event.event_stream] and the payload
    parser [Event.event_actions], together with the two regular expressions
    the parser is built on.

    Conventions.
    - A Python [str] is a [string]; the frame reader's buffer (a Python list
      of one-character strings) is a [list ascii].  Characters are the code
      points below 256; the character classes of [str.strip], [str.lower],
      [int] and [\s] are the ones CPython uses on that range.
    - A Python [dict] with string keys is a [gmap string _].
    - A generator is a state plus a [next] function returning an [outcome];
      [close] delivers [GeneratorExit] at the suspension point.
    - The streaming response (requests' [Response]) is the shared store both
      readers consume; every operation on it is recorded in its trace. *)

From Stdlib Require Import ZArith NArith Ascii String List Bool Lia.
From Stdlib Require Import DecimalString DecimalNat.
From stdpp Require Import base option list strings gmap fin_maps.
Import ListNotations.

Local Open Scope string_scope.
Local Open Scope list_scope.

(** ** Python string primitives *)

Module Py.

Definition code (c : ascii) : N := N_of_ascii c.

Definition CR : ascii := "013"%char.
Definition LF : ascii := "010"%char.
Definition DQUOTE : ascii := "034"%char.
Definition BACKSLASH : ascii := "092"%char.

(** [str.isspace] on one character, also the class [\s] of [re] on [str]
    patterns: TAB..CR, FS..US, SPACE, NEL and NBSP. *)
Definition isspace (c : ascii) : bool :=
  let n := code c in
  ((9 <=? n) && (n <=? 13) || (28 <=? n) && (n <=? 32)
   || (n =? 133) || (n =? 160))%N.

Fixpoint lstrip (s : string) : string :=
  match s with
  | EmptyString => EmptyString
  | String c t => if isspace c then lstrip t else s
  end.

Definition is_empty (s : string) : bool :=
  match s with EmptyString => true | _ => false end.

Fixpoint rstrip (s : string) : string :=
  match s with
  | EmptyString => EmptyString
  | String c t =>
      let t' := rstrip t in
      if isspace c && is_empty t' then EmptyString else String c t'
  end.

(** [s.strip()] *)
Definition strip (s : string) : string := rstrip (lstrip s).

(** [str.lower] on one character: A..Z and the Latin-1 capitals
    (U+00C0..U+00DE without the multiplication sign U+00D7). *)
Definition lower_char (c : ascii) : ascii :=
  let n := code c in
  if ((65 <=? n) && (n <=? 90)
      || (192 <=? n) && (n <=? 222) && negb (n =? 215))%N
  then ascii_of_N (n + 32) else c.

Fixpoint lower (s : string) : string :=
  match s with
  | EmptyString => EmptyString
  | String c t => String (lower_char c) (lower t)
  end.

(** [s.startswith(p)] *)
Definition startswith (p s : string) : bool := String.prefix p s.

(** [s.split(sep)] for a one-character separator; never the empty list. *)
Fixpoint split (sep : ascii) (s : string) : list string :=
  match s with
  | EmptyString => [EmptyString]
  | String c t =>
      let r := split sep t in
      if Ascii.eqb c sep then EmptyString :: r
      else match r with
           | h :: rest => String c h :: rest
           | [] => [String c EmptyString]
           end
  end.

(** [s.replace(old, new)] for a one-character [old]. *)
Fixpoint replace (old : ascii) (new : string) (s : string) : string :=
  match s with
  | EmptyString => EmptyString
  | String c t =>
      if Ascii.eqb c old then new ++ replace old new t
      else String c (replace old new t)
  end.

(** *** [int(s)]

    CPython first maps every non-ASCII white space to a blank, then
    [PyLong_FromString] skips the C white space (TAB..CR and SPACE), reads
    an optional sign, then decimal digits with single underscores between
    two digits, then trailing white space.  (The default limit of 4300
    digits of recent interpreters is not modelled.) *)
Definition int_space (c : ascii) : bool :=
  let n := code c in
  ((9 <=? n) && (n <=? 13) || (n =? 32) || (n =? 133) || (n =? 160))%N.

Definition digit_val (c : ascii) : option Z :=
  let n := code c in
  if ((48 <=? n) && (n <=? 57))%N then Some (Z.of_N n - 48)%Z else None.

Fixpoint skip_int_space (s : string) : string :=
  match s with
  | EmptyString => EmptyString
  | String c t => if int_space c then skip_int_space t else s
  end.

(** Digits and underscores; [prev] tells whether the previous character was
    a digit.  Returns the value and the unread rest. *)
Fixpoint int_digits (acc : Z) (prev : bool) (s : string) : option (Z * string) :=
  match s with
  | EmptyString => if prev then Some (acc, EmptyString) else None
  | String c t =>
      match digit_val c with
      | Some d => int_digits (acc * 10 + d)%Z true t
      | None =>
          if Ascii.eqb c "_"%char
          then (if prev then int_digits acc false t else None)
          else (if prev then Some (acc, s) else None)
      end
  end.

Definition int (s : string) : option Z :=
  let s1 := skip_int_space s in
  let '(neg, s2) :=
    match s1 with
    | String "-"%char t => (true, t)
    | String "+"%char t => (false, t)
    | _ => (false, s1)
    end in
  match int_digits 0%Z false s2 with
  | Some (v, rest) =>
      if is_empty (skip_int_space rest)
      then Some (if neg then (- v)%Z else v) else None
  | None => None
  end.

End Py.

(** ** A backtracking matcher for the fragment of [re] the module uses

    Python's [re] is a backtracking engine: alternatives are tried left to
    right, a greedy repetition tries one more iteration before it tries the
    continuation, a lazy one the other way round.  The matcher is written
    in continuation-passing style over the unread suffix of the subject. *)

Module Re.

Inductive regex : Type :=
| Chr (p : ascii -> bool)            (* one character of a class *)
| Seq (a b : regex)
| Alt (a b : regex)
| Star (greedy : bool) (a : regex)   (* a* and a*? *)
| Group (i : nat) (a : regex)        (* capturing group number i *)
| Eos.                               (* $ without MULTILINE *)

(** [a+] and [a+?] *)
Definition Plus (greedy : bool) (a : regex) : regex := Seq a (Star greedy a).

Definition lit (c : ascii) : regex := Chr (Ascii.eqb c).
(** [.] without DOTALL *)
Definition dot : regex := Chr (fun c => negb (Ascii.eqb c Py.LF)).

(** Captured text by group number; the last capture of a group wins. *)
Definition caps : Type := list (nat * list ascii).

Fixpoint group (i : nat) (c : caps) : string :=
  match c with
  | [] => EmptyString
  | (j, t) :: c' => if Nat.eqb i j then string_of_list_ascii t else group i c'
  end.

Section Match.
Context {A : Type}.

(** [rmatch r s c k]: match [r] at the head of [s], then hand the unread
    rest and the captures to [k]; [None] makes the matcher backtrack.  An
    iteration of a repetition has to consume a character (sre stops a
    repetition whose body matched the empty string). *)
Fixpoint rmatch (r : regex) (s : list ascii) (c : caps)
    (k : list ascii -> caps -> option A) : option A :=
  match r with
  | Chr p =>
      match s with
      | x :: s' => if p x then k s' c else None
      | [] => None
      end
  | Seq a b => rmatch a s c (fun s' c' => rmatch b s' c' k)
  | Alt a b =>
      match rmatch a s c k with
      | Some x => Some x
      | None => rmatch b s c k
      end
  | Star greedy a =>
      (fix loop (n : nat) (s : list ascii) (c : caps) {struct n} : option A :=
         match n with
         | O => k s c
         | S n' =>
             let more :=
               rmatch a s c (fun s' c' =>
                 if (length s' <? length s)%nat then loop n' s' c' else None) in
             if greedy
             then match more with Some x => Some x | None => k s c end
             else match k s c with Some x => Some x | None => more end
         end) (length s) s c
  | Group i a =>
      rmatch a s c (fun s' c' =>
        k s' ((i, firstn (length s - length s') s) :: c'))
  | Eos =>
      match s with
      | [] => k s c
      | [x] => if Ascii.eqb x Py.LF then k s c else None
      | _ => None
      end
  end.
End Match.

(** [pattern.match] at the head of [s]: the unread rest and the captures. *)
Definition match_at (r : regex) (s : list ascii) : option (list ascii * caps) :=
  rmatch r s [] (fun s' c => Some (s', c)).

(** The scan of [pattern.findall]: [skip] characters belong to the previous
    match; after a match the scan resumes at its end (one character further
    after an empty match). *)
Fixpoint scan (r : regex) (skip : nat) (s : list ascii) : list caps :=
  match s with
  | [] =>
      match skip, match_at r [] with
      | O, Some (_, c) => [c]
      | _, _ => []
      end
  | _ :: t =>
      match skip with
      | S n => scan r n t
      | O =>
          match match_at r s with
          | Some (s', c) => c :: scan r (length s - length s' - 1) t
          | None => scan r 0 t
          end
      end
  end.

(** [pattern.findall(s)] for a pattern with the two groups 1 and 2. *)
Definition findall2 (r : regex) (s : string) : list (string * string) :=
  map (fun c => (group 1 c, group 2 c)) (scan r 0 (list_ascii_of_string s)).

End Re.

(** [_REG_PARSE_KEY_VALUE = (?P<key>.+?)(?:=)(?P<value>.+?)(?:;|$)] *)
Definition _REG_PARSE_KEY_VALUE : Re.regex :=
  Re.Seq (Re.Group 1 (Re.Plus false Re.dot))
  (Re.Seq (Re.lit "="%char)
  (Re.Seq (Re.Group 2 (Re.Plus false Re.dot))
          (Re.Alt (Re.lit ";"%char) Re.Eos))).

(** The class of the characters other than the double quote and the
    backslash. *)
Definition not_quote_backslash (c : ascii) : bool :=
  negb (Ascii.eqb c Py.DQUOTE) && negb (Ascii.eqb c Py.BACKSLASH).

(** The class of the characters other than white space and the double
    quote. *)
Definition not_space_quote (c : ascii) : bool :=
  negb (Py.isspace c) && negb (Ascii.eqb c Py.DQUOTE).

(** The token of the pseudo-JSON blob, the alternative both groups of
    [_REG_PARSE_MALFORMED_JSON] share.  With Q for the double quote and B
    for the backslash it is either Q, any number of characters other than
    Q and B, any number of escapes (B, one character, then characters other
    than Q and B), and Q; or one or more characters that are neither white
    space nor Q.  Every repetition is greedy. *)
Definition json_token : Re.regex :=
  Re.Alt
    (Re.Seq (Re.lit Py.DQUOTE)
    (Re.Seq (Re.Star true (Re.Chr not_quote_backslash))
    (Re.Seq (Re.Star true
               (Re.Seq (Re.lit Py.BACKSLASH)
               (Re.Seq Re.dot (Re.Star true (Re.Chr not_quote_backslash)))))
            (Re.lit Py.DQUOTE))))
    (Re.Plus true (Re.Chr not_space_quote)).

(** [_REG_PARSE_MALFORMED_JSON = (?P<key>TOKEN)\s:\s(?P<value>TOKEN)] *)
Definition _REG_PARSE_MALFORMED_JSON : Re.regex :=
  Re.Seq (Re.Group 1 json_token)
  (Re.Seq (Re.Chr Py.isspace)
  (Re.Seq (Re.lit ":"%char)
  (Re.Seq (Re.Chr Py.isspace)
          (Re.Group 2 json_token)))).

(** ** Exceptions and generators *)

(** Modelled from the spec: [CommError], the unified communication error
    of [amcrest.exceptions], which is not among the sources; it carries its
    argument and its [__cause__].  The other constructors are the exceptions
    that can leave the module: [RequestException] and [HTTPError] stand for
    the two classes of the [except] clause of [event_stream] and all their
    subclasses, [OtherError] for any other exception a transport may raise,
    the rest for Python's own. *)
Inductive exn : Type :=
| RequestException (what : string)
| HTTPError (what : string)
| OtherError (what : string)
| ValueError
| IndexError
| KeyError (key : string)
| RuntimeError
| CommError (arg cause : exn).

(** [isinstance(e, (RequestException, HTTPError))] *)
Definition is_transport (e : exn) : bool :=
  match e with
  | RequestException _ | HTTPError _ => true
  | _ => false
  end.

(** [e.__cause__] *)
Definition cause_of (e : exn) : option exn :=
  match e with
  | CommError _ c => Some c
  | _ => None
  end.

(** What one [next(g)] on a generator gives. *)
Inductive outcome (A : Type) : Type :=
| Yield (a : A)
| StopIteration
| Raise (e : exn).
Arguments Yield {A} a.
Arguments StopIteration {A}.
Arguments Raise {A} e.

Definition is_yield {A} (o : outcome A) : bool :=
  match o with Yield _ => true | _ => false end.

(** ** The streaming response *)

(** What happens in a session, for its history. *)
Inductive op : Type :=
| OpOpen                 (* self.command(..., stream=True) returned *)
| OpRead                 (* a read was asked of the transport *)
| OpRaise (e : exn)      (* the transport raised e *)
| OpLine (l : string)    (* the frame reader handed over the line l *)
| OpClose.               (* Response.close() *)

(** Modelled from the spec: the streaming response of the transport
    collaborator (requests' [Response], which [Http.command] returns; neither
    is among the sources).  It is the interface of section 6 of the
    specification: a body of decoded characters still to come, read one
    character at a time ([iter_content(decode_unicode=True)]) or by count
    ([iter_content(chunk_size=n, decode_unicode=True)]), a settable
    encoding, and [close].  When the body is used up the transport reports
    the end of the stream ([fault = None]) or raises ([fault = Some e]).
    All iterators over one response consume the same body.  [trace] is the
    history of the session, most recent first. *)
Record Response : Type := mkResponse {
  raw : list ascii;
  fault : option exn;
  encoding : option string;
  trace : list op
}.

(** [Response.close()], which the [with] block calls on its way out. *)
Definition close (r : Response) : Response :=
  mkResponse (raw r) (fault r) (encoding r) (OpClose :: trace r).

(** [next(ret.iter_content(chunk_size=n, decode_unicode=True))]: up to [n]
    characters of the body.  The read is short only at the end of the body;
    a body that ends in a fault before [n] characters raises; an empty body
    ends the fresh iterator at once, so that [next] raises StopIteration,
    reported here as the [StopIteration] outcome.  A count of 0 asks for
    no character: the iterator has nothing to give and ends at once, the
    body left as it is.  A negative count is no bound: the read takes the
    body to its end. *)
Definition read_sized (n : Z) (r : Response) : outcome string * Response :=
  let k := Z.to_nat n in
  let tr := OpRead :: trace r in
  if (n =? 0)%Z
  then (StopIteration, mkResponse (raw r) (fault r) (encoding r) tr)
  else if (0 <? n)%Z && (k <=? length (raw r))%nat
  then (Yield (string_of_list_ascii (firstn k (raw r))),
        mkResponse (skipn k (raw r)) (fault r) (encoding r) tr)
  else
    match fault r, raw r with
    | Some e, _ => (Raise e, mkResponse [] (fault r) (encoding r) (OpRaise e :: tr))
    | None, [] => (StopIteration, mkResponse [] (fault r) (encoding r) tr)
    | None, _ => (Yield (string_of_list_ascii (raw r)),
                  mkResponse [] (fault r) (encoding r) tr)
    end.

(** ** [_event_lines] *)

Inductive el_pc : Type :=
| ElStart      (* created, body not entered *)
| ElYielded    (* suspended at the yield, line.clear() pending *)
| ElDone.      (* returned or raised *)

Record el_state : Type := mkEl { el_pc_of : el_pc; el_line : list ascii }.

(** [line[-2:]] *)
Definition last2 (line : list ascii) : list ascii :=
  skipn (length line - 2) line.

(** [line.append(char)] and the test [line[-2:] == [CR, LF]]; a completed
    line is [strip] of the joined buffer. *)
Definition el_step (line : list ascii) (char : ascii)
  : list ascii * option string :=
  let line := line ++ [char] in
  if bool_decide (last2 line = [Py.CR; Py.LF])
  then (line, Some (Py.strip (string_of_list_ascii line)))
  else (line, None).

(** The [for char in ret.iter_content(decode_unicode=True)] loop, run until
    the generator yields, returns or raises. *)
Fixpoint el_loop (f : option exn) (enc : option string)
    (line : list ascii) (body : list ascii) (tr : list op)
  : outcome string * el_state * Response :=
  match body with
  | [] =>
      match f with
      | None => (StopIteration, mkEl ElDone line,
                 mkResponse [] f enc (OpRead :: tr))
      | Some e => (Raise e, mkEl ElDone line,
                   mkResponse [] f enc (OpRaise e :: OpRead :: tr))
      end
  | char :: rest =>
      match el_step line char with
      | (line, Some l) =>
          (Yield l, mkEl ElYielded line,
           mkResponse rest f enc (OpLine l :: OpRead :: tr))
      | (line, None) => el_loop f enc line rest (OpRead :: tr)
      end
  end.

(** The call [_event_lines(ret)]: a generator that has not started, and
    the response it is going to read. *)
Definition _event_lines (ret : Response) : el_state * Response :=
  (mkEl ElStart [], ret).

(** [next] on the generator: [line = []] on entry, [line.clear()] on
    resumption after a yield. *)
Definition el_next (el : el_state) (ret : Response)
  : outcome string * el_state * Response :=
  match el_pc_of el with
  | ElDone => (StopIteration, el, ret)
  | ElStart | ElYielded =>
      el_loop (fault ret) (encoding ret) [] (raw ret) (trace ret)
  end.

(** ** [Event.event_stream] *)

(** [line.lower().startswith("content-length:")] *)
Definition is_header (line : string) : bool :=
  Py.startswith "content-length:" (Py.lower line).

(** [int(line.split(":")[1])] *)
Definition chunk_size (line : string) : exn + Z :=
  match Py.split ":"%char line !! 1%nat with
  | None => inl IndexError
  | Some field =>
      match Py.int field with
      | Some n => inr n
      | None => inl ValueError
      end
  end.

(** The body of the [for line] loop on a header line:
    [chunk_size = int(...)], then [yield next(ret.iter_content(...))].  A
    StopIteration raised by [next] inside a generator body leaves the
    generator as RuntimeError (PEP 479). *)
Definition es_chunk (line : string) (el : el_state) (ret : Response)
  : outcome string * el_state * Response :=
  match chunk_size line with
  | inl e => (Raise e, el, ret)
  | inr n =>
      match read_sized n ret with
      | (Yield chunk, ret') => (Yield chunk, el, ret')
      | (StopIteration, ret') => (Raise RuntimeError, el, ret')
      | (Raise e, ret') => (Raise e, el, ret')
      end
  end.

(** [for line in _event_lines(ret): if <header>: ...], run until the
    generator yields, ends or raises.  The loop is fused with the frame
    reader's own loop so that it is structurally recursive on the body;
    [es_for_unfold] below states it in terms of [el_next]. *)
Fixpoint es_loop (f : option exn) (enc : option string)
    (line : list ascii) (body : list ascii) (tr : list op)
  : outcome string * el_state * Response :=
  match body with
  | [] => el_loop f enc line [] tr
  | char :: rest =>
      match el_step line char with
      | (line, Some l) =>
          if is_header l
          then es_chunk l (mkEl ElYielded line)
                 (mkResponse rest f enc (OpLine l :: OpRead :: tr))
          else es_loop f enc [] rest (OpLine l :: OpRead :: tr)
      | (line, None) => es_loop f enc line rest (OpRead :: tr)
      end
  end.

Definition es_for (el : el_state) (ret : Response)
  : outcome string * el_state * Response :=
  match el_pc_of el with
  | ElDone => (StopIteration, el, ret)
  | ElStart | ElYielded =>
      es_loop (fault ret) (encoding ret) [] (raw ret) (trace ret)
  end.

Inductive es_pc : Type :=
| EsStart         (* created, body not entered: no request made yet *)
| EsSuspended     (* suspended at the yield, inside try and with *)
| EsDone.         (* returned, raised or closed *)

(** [es_ret] of a generator that has not started is the response
    [self.command] is going to return. *)
Record es_state : Type := mkEs {
  es_pc_of : es_pc;
  es_lines : el_state;
  es_ret : Response
}.

Definition event_stream (ret : Response) : es_state :=
  mkEs EsStart (_event_lines ret).1 ret.

(** [except (RequestException, HTTPError) as error:
       raise CommError(error) from error] *)
Definition handler (e : exn) : exn :=
  if is_transport e then CommError e e else e.

(** Leaving the [try] and the [with] block: a yield suspends inside both,
    anything else runs the handler and then [ret.close()]. *)
Definition es_exit (o : outcome string * el_state * Response)
  : outcome string * es_state :=
  match o with
  | (Yield chunk, el, ret) => (Yield chunk, mkEs EsSuspended el ret)
  | (StopIteration, el, ret) => (StopIteration, mkEs EsDone el (close ret))
  | (Raise e, el, ret) => (Raise (handler e), mkEs EsDone el (close ret))
  end.

(** [with self.command(...) as ret: if ret.encoding is None: ...].  The
    request is taken to succeed and to return [ret] ([Http.command] is not
    among the sources); the logging filter and the timeout pair set up
    before it do not touch the stream and are left out. *)
Definition es_enter (ret : Response) : Response :=
  mkResponse (raw ret) (fault ret)
    (match encoding ret with None => Some "utf-8" | Some e => Some e end)
    (OpOpen :: trace ret).

Definition es_next (st : es_state) : outcome string * es_state :=
  match es_pc_of st with
  | EsDone => (StopIteration, st)
  | EsStart => es_exit (es_for (es_lines st) (es_enter (es_ret st)))
  | EsSuspended => es_exit (es_for (es_lines st) (es_ret st))
  end.

(** [generator.close()]: GeneratorExit at the yield is not caught by the
    [except] clause and leaves through the [with] block; a generator that
    never started has no response to release. *)
Definition es_close (st : es_state) : es_state :=
  match es_pc_of st with
  | EsSuspended => mkEs EsDone (mkEl ElDone (el_line (es_lines st))) (close (es_ret st))
  | EsStart => mkEs EsDone (es_lines st) (es_ret st)
  | EsDone => st
  end.

(** [n] successive [next] calls and their outcomes. *)
Fixpoint nexts {S A : Type} (next : S -> outcome A * S) (n : nat) (st : S)
  : list (outcome A) * S :=
  match n with
  | O => ([], st)
  | Datatypes.S n' =>
      let (o, st') := next st in
      let (os, st'') := nexts next n' st' in
      (o :: os, st'')
  end.

Definition wire (s : string) : list ascii := list_ascii_of_string s.
Definition CRLF : string := String Py.CR (String Py.LF EmptyString).

(** ** [Event.event_actions] *)

(** A payload value: a string, or the nested mapping stored under [data]. *)
Inductive pvalue : Type :=
| PStr (s : string)
| PDict (d : gmap string string).

(** The dict comprehension over [_REG_PARSE_MALFORMED_JSON.findall(Value)]:
    later pairs overwrite earlier ones with the same key. *)
Definition unquote (s : string) : string := Py.replace Py.DQUOTE EmptyString s.

Definition data_insert (d : gmap string string) (kv : string * string)
  : gmap string string :=
  <[unquote kv.1 := unquote kv.2]> d.

Definition parse_data (Value : string) : gmap string string :=
  foldl data_insert ∅ (Re.findall2 _REG_PARSE_MALFORMED_JSON Value).

(** One turn of [for Key, Value in ...findall(...)]:
    [if Key == "data": Value = {...}] and [payload[Key] = Value]. *)
Definition payload_value (Key Value : string) : pvalue :=
  if String.eqb Key "data" then PDict (parse_data Value) else PStr Value.

Definition payload_insert (payload : gmap string pvalue) (kv : string * string)
  : gmap string pvalue :=
  <[kv.1 := payload_value kv.1 kv.2]> payload.

(** [event_info.strip().replace(LF, "")] and its key=value pairs. *)
Definition payload_pairs (event_info : string) : list (string * string) :=
  Re.findall2 _REG_PARSE_KEY_VALUE
    (Py.replace Py.LF EmptyString (Py.strip event_info)).

Definition parse_payload (event_info : string) : gmap string pvalue :=
  foldl payload_insert ∅ (payload_pairs event_info).

Inductive ea_pc : Type := EaStart | EaSuspended | EaDone.

Record ea_state : Type := mkEa { ea_pc_of : ea_pc; ea_source : es_state }.

Definition event_actions (ret : Response) : ea_state :=
  mkEa EaStart (event_stream ret).

(** [next] on [event_actions]: one item of the inner [event_stream], parsed;
    [payload["Code"]] raises KeyError when the key is missing.  An
    exception leaving the frame drops the inner generator, which CPython
    finalises by closing it. *)
Definition ea_next (st : ea_state)
  : outcome (pvalue * gmap string pvalue) * ea_state :=
  match ea_pc_of st with
  | EaDone => (StopIteration, st)
  | EaStart | EaSuspended =>
      match es_next (ea_source st) with
      | (Yield event_info, es) =>
          let payload := parse_payload event_info in
          match payload !! "Code" with
          | Some code => (Yield (code, payload), mkEa EaSuspended es)
          | None => (Raise (KeyError "Code"), mkEa EaDone (es_close es))
          end
      | (StopIteration, es) => (StopIteration, mkEa EaDone es)
      | (Raise e, es) => (Raise e, mkEa EaDone es)
      end
  end.

(** [generator.close()] on [event_actions]; the inner generator exists only
    once the body has been entered. *)
Definition ea_close (st : ea_state) : ea_state :=
  match ea_pc_of st with
  | EaSuspended => mkEa EaDone (es_close (ea_source st))
  | EaStart | EaDone => mkEa EaDone (ea_source st)
  end.

(** * Vocabulary of the properties

    Predicates on wire data and on traces, and the concrete inputs of the
    examples. *)

(** [s] between double quotes. *)
Definition q (s : string) : string :=
  String Py.DQUOTE (s ++ String Py.DQUOTE EmptyString).

(** The payload text of a motion event and the mapping it stands for. *)
Definition motion_text : string :=
  "Code=VideoMotion;action=Start;index=0;data=" ++ q "Object[0]" ++ " : " ++ q "1".

Definition motion_payload : gmap string pvalue :=
  <["Code" := PStr "VideoMotion"]> (<["action" := PStr "Start"]>
  (<["index" := PStr "0"]> (<["data" := PDict {["Object[0]" := "1"]}]> ∅))).

(** Does the sequence CR LF occur in [l]? *)
Fixpoint has_crlf (l : list ascii) : bool :=
  match l with
  | a :: t =>
      match t with
      | b :: _ => (Ascii.eqb a Py.CR && Ascii.eqb b Py.LF) || has_crlf t
      | [] => false
      end
  | [] => false
  end.

(** [n] reads in the trace. *)
Definition reads (n : nat) (tr : list op) : list op := repeat OpRead n ++ tr.

(** The line the frame reader makes of a CRLF-free body. *)
Definition line_of (b : list ascii) : string :=
  Py.strip (string_of_list_ascii (b ++ [Py.CR; Py.LF])).

(** The trace of reading that line: its characters, then the line. *)
Definition line_trace (b : list ascii) (tr : list op) : list op :=
  OpLine (line_of b) :: reads (length b + 2) tr.

(** The concatenation of CRLF-terminated bodies and an unterminated tail. *)
Fixpoint frame (bodies : list (list ascii)) (tail : list ascii) : list ascii :=
  match bodies with
  | [] => tail
  | b :: bs => b ++ Py.CR :: Py.LF :: frame bs tail
  end.

(** No CR LF inside: read from an empty buffer, [b] completes no line. *)
Definition crlf_free (b : list ascii) : Prop := has_crlf b = false.

(** [next] on the frame reader, with the response it reads as part of the
    state. *)
Definition el_next1 (s : el_state * Response)
  : outcome string * (el_state * Response) :=
  let '(o, el, ret) := el_next s.1 s.2 in (o, (el, ret)).

(** How an exhausted source ends the reader. *)
Definition source_end (f : option exn) : outcome string :=
  match f with None => StopIteration | Some e => Raise e end.

(** The response as the body of [event_stream] sees it at the next [next]:
    a generator that has not started makes the request first. *)
Definition es_store (st : es_state) : Response :=
  match es_pc_of st with
  | EsStart => es_enter (es_ret st)
  | _ => es_ret st
  end.

(** A generator that can still run its loop. *)
Definition es_live (st : es_state) : Prop :=
  (es_pc_of st = EsStart \/ es_pc_of st = EsSuspended)
  /\ el_pc_of (es_lines st) <> ElDone.

(** A chunk: lines that are not headers, the header line, and the payload
    the header announces. *)
Record chunk : Type := mkChunk {
  noise : list (list ascii);
  header : list ascii;
  payload : string
}.

(** A line the decoder skips. *)
Definition noise_line (b : list ascii) : Prop :=
  crlf_free b /\ is_header (line_of b) = false.

(** A header line announcing [n] characters, [n] positive. *)
Definition header_line (h : list ascii) (n : Z) : Prop :=
  crlf_free h /\ is_header (line_of h) = true
  /\ chunk_size (line_of h) = inr n /\ (0 < n)%Z.

(** A well-formed chunk: the header announces the length of the payload. *)
Definition wf_chunk (c : chunk) : Prop :=
  Forall noise_line (noise c)
  /\ header_line (header c) (Z.of_nat (String.length (payload c))).

(** The characters of a chunk, and of a series of chunks, before [rest]. *)
Definition wire_chunk (c : chunk) (rest : list ascii) : list ascii :=
  frame (noise c) (header c ++ Py.CR :: Py.LF :: wire (payload c) ++ rest).

Fixpoint wire_chunks (cs : list chunk) (rest : list ascii) : list ascii :=
  match cs with
  | [] => rest
  | c :: cs' => wire_chunk c (wire_chunks cs' rest)
  end.

(** The trace of reading lines, and of decoding chunks. *)
Fixpoint lines_trace (bodies : list (list ascii)) (tr : list op) : list op :=
  match bodies with
  | [] => tr
  | b :: bs => lines_trace bs (line_trace b tr)
  end.

Definition chunk_trace (c : chunk) (tr : list op) : list op :=
  OpRead :: line_trace (header c) (lines_trace (noise c) tr).

Fixpoint chunks_trace (cs : list chunk) (tr : list op) : list op :=
  match cs with
  | [] => tr
  | c :: cs' => chunks_trace cs' (chunk_trace c tr)
  end.

(** A header line whose count [int] accepts. *)
Definition valid_header (l : string) : bool :=
  is_header l && match chunk_size l with inr _ => true | inl _ => false end.

(** The lines the frame reader handed over, and those among them that are
    headers with a count. *)
Fixpoint lines_seen (tr : list op) : nat :=
  match tr with
  | [] => 0
  | OpLine _ :: t => S (lines_seen t)
  | _ :: t => lines_seen t
  end.

Fixpoint headers_seen (tr : list op) : nat :=
  match tr with
  | [] => 0
  | OpLine l :: t => (if valid_header l then 1 else 0) + headers_seen t
  | _ :: t => headers_seen t
  end.

(** The trace of the last read, the one that finds the body used up. *)
Definition end_trace (f : option exn) (tr : list op) : list op :=
  match f with
  | None => OpRead :: tr
  | Some e => OpRaise e :: OpRead :: tr
  end.

(** How [event_stream] ends when the body is used up. *)
Definition stream_end (f : option exn) : outcome string :=
  match f with None => StopIteration | Some e => Raise (handler e) end.

(** The payload text decodes to a mapping with the key Code. *)
Definition has_code (event_info : string) : Prop :=
  is_Some (parse_payload event_info !! "Code").

(** The record made of a payload text that has a [Code]. *)
Definition record_of (event_info : string) : pvalue * gmap string pvalue :=
  (default (PStr EmptyString) (parse_payload event_info !! "Code"),
   parse_payload event_info).

(** The end of the inner generator as [event_actions] passes it on. *)
Definition pass {A B : Type} (o : outcome A) : outcome B :=
  match o with
  | Yield _ | StopIteration => StopIteration
  | Raise e => Raise e
  end.

(** The number of items among the outcomes of a run. *)
Definition count_yields {A : Type} (os : list (outcome A)) : nat :=
  length (List.filter is_yield os).

(** Two parts as a camera sends them: boundary and header lines, a count
    that covers the blank line and the text, and the line ends after it. *)
Definition start_text : string := CRLF ++ "Code=VideoMotion;action=Start;index=0".
Definition stop_text : string := CRLF ++ "Code=VideoMotion;action=Stop;index=0".

Definition two_chunks : list chunk :=
  [ mkChunk [wire "--myboundary"; wire "Content-Type: text/plain"]
      (wire "Content-Length:39") start_text;
    mkChunk [[]; []; wire "--myboundary"; wire "Content-Type: text/plain"]
      (wire "Content-Length:38") stop_text ].

Definition two_chunks_wire : string :=
  "--myboundary" ++ CRLF ++ "Content-Type: text/plain" ++ CRLF
  ++ "Content-Length:39" ++ CRLF ++ start_text ++ CRLF ++ CRLF
  ++ "--myboundary" ++ CRLF ++ "Content-Type: text/plain" ++ CRLF
  ++ "Content-Length:38" ++ CRLF ++ stop_text ++ CRLF ++ CRLF ++ "--myb".

Definition motion_response : Response :=
  mkResponse (wire ("Content-Length: 60" ++ CRLF ++ motion_text)) None None [].

(** The common shape of [payload[Key] = Value] and of the dict
    comprehension: store [val kv] under [key kv]. *)
Definition put {V : Type} (key : string * string -> string)
    (val : string * string -> V) (m : gmap string V) (kv : string * string)
  : gmap string V :=
  <[key kv := val kv]> m.

Definition twice_blob : string := q "k" ++ " : 1 k : 2".
Definition twice_text : string := "Code=A;data=" ++ twice_blob ++ ";Code=B".

Fixpoint has_quote (s : string) : bool :=
  match s with
  | EmptyString => false
  | String c t => Ascii.eqb c Py.DQUOTE || has_quote t
  end.

(** A quoted key and a quoted value with an escaped quote inside each. *)
Definition escaped_key : string := q ("a\" ++ String Py.DQUOTE "b").
Definition escaped_value : string := q ("c\" ++ String Py.DQUOTE "d").
Definition escaped_text : string := escaped_key ++ " : " ++ escaped_value.

Definition no_code_response : Response :=
  mkResponse
    (wire ("Content-Length: 3" ++ CRLF ++ "a=1"
           ++ "Content-Length: 6" ++ CRLF ++ "Code=X"))
    None None [].







(** [tr'] extends [tr] by operations that neither open nor close the
    response; if the transport raised among them, it raised its fault and
    the step ended with that exception. *)
Definition extends (f : option exn) (o : outcome string) (tr tr' : list op)
  : Prop :=
  exists new,
    tr' = new ++ tr /\ ~ In OpClose new /\ ~ In OpOpen new
    /\ forall e, In (OpRaise e) new -> f = Some e /\ o = Raise e.

Definition reset_error : exn := RequestException "ChunkedEncodingError".

Definition reset_response : Response :=
  mkResponse (wire ("Content-Length: 3" ++ CRLF ++ "abc" ++ "--my"))
    (Some reset_error) None [].

(** What a consumer can do with the generator: ask for the next item, or
    give it up ([close], which is also what the finaliser of an abandoned
    generator calls). *)
Inductive action : Type := ANext | AClose.

Definition es_act (st : es_state) (a : action) : es_state :=
  match a with
  | ANext => snd (es_next st)
  | AClose => es_close st
  end.

Definition es_run (acts : list action) (st : es_state) : es_state :=
  fold_left es_act acts st.

(** Operations that neither request nor release the response. *)
Definition quiet (new : list op) : Prop := ~ In OpClose new /\ ~ In OpOpen new.

(** The session of a generator made for a response whose trace was [t0]:
    nothing before the first [next]; then one request and no release while
    the generator is suspended; at the end either nothing at all (closed
    before it started) or one request and, as the last operation, one
    release. *)
Definition session (t0 : list op) (st : es_state) : Prop :=
  match es_pc_of st with
  | EsStart => trace (es_ret st) = t0
  | EsSuspended =>
      exists new, trace (es_ret st) = new ++ OpOpen :: t0 /\ quiet new
  | EsDone =>
      trace (es_ret st) = t0
      \/ exists new, trace (es_ret st) = OpClose :: new ++ OpOpen :: t0 /\ quiet new
  end.

(** Every [next] of the run gave an item. *)
Definition all_yield {A : Type} (outs : list (outcome A)) : Prop :=
  Forall (fun o => is_yield o = true) outs.

(** The response was requested once and released once, the release being
    the last operation on it. *)
Definition released_once (t0 : list op) (st : es_state) : Prop :=
  es_pc_of st = EsDone
  /\ exists new, trace (es_ret st) = OpClose :: new ++ OpOpen :: t0 /\ quiet new.

(** * The rest of the module

    The polled interface of [Event], the logging filter and the request of
    [event_stream], with the Python primitives they use. *)

Module PyStr.

(** [sub in s] on strings. *)
Fixpoint contains (sub s : string) : bool :=
  String.prefix sub s
  || match s with
     | EmptyString => false
     | String _ t => contains sub t
     end.

(** [s.split()]: the maximal runs of characters that are not white space. *)
Fixpoint words (s : string) : list string :=
  match s with
  | EmptyString => []
  | String c t =>
      if Py.isspace c then words t
      else
        match t with
        | EmptyString => [String c EmptyString]
        | String d _ =>
            if Py.isspace d then String c EmptyString :: words t
            else
              match words t with
              | w :: ws => String c w :: ws
              | [] => [String c EmptyString]
              end
        end
  end.

(** [sep.join(l)] *)
Fixpoint join (sep : string) (l : list string) : string :=
  match l with
  | [] => EmptyString
  | [x] => x
  | x :: l' => x ++ sep ++ join sep l'
  end.

End PyStr.

(** ** The polled interface *)

(** What the polled functions can raise: one of [exn], coming from a
    collaborator or from [int], or AttributeError. *)
Inductive poll_exn : Type :=
| Exn (e : exn)
| AttributeError.

(** Sequencing of calls that may raise. *)
Definition and_then {A B : Type} (r : poll_exn + A) (f : A -> poll_exn + B)
  : poll_exn + B :=
  match r with
  | inl e => inl e
  | inr a => f a
  end.

(** A list comprehension [[f(x) for x in l]]: left to right, the first
    exception ends it. *)
Fixpoint comprehension {A B : Type} (f : A -> poll_exn + B) (l : list A)
  : poll_exn + list B :=
  match l with
  | [] => inr []
  | x :: l' =>
      and_then (f x) (fun y =>
      and_then (comprehension f l') (fun ys => inr (y :: ys)))
  end.

(** The two kinds of Python values that meet in the membership tests. *)
Inductive pyval : Type :=
| VInt (n : Z)
| VStr (s : string).

(** [a == b]: an int and a str are never equal. *)
Definition py_eq (a b : pyval) : bool :=
  match a, b with
  | VInt n, VInt m => (n =? m)%Z
  | VStr s, VStr t => String.eqb s t
  | _, _ => false
  end.

(** [x in l] for a list [l]. *)
Definition py_in (x : pyval) (l : list pyval) : bool := existsb (py_eq x) l.

(** The path [f"eventManager.cgi?action=getEventIndexes&code={eventcode}"]. *)
Definition indexes_path (eventcode : string) : string :=
  "eventManager.cgi?action=getEventIndexes&code=" ++ eventcode.

Section Polled.

(** The collaborators, none of them among the sources: [Http.command] (a
    request by its path, giving a response content or raising),
    [bytes.decode] on that content, and [utils.pretty]. *)
Variable content : Type.
Variable command : string -> poll_exn + content.
Variable decode : content -> poll_exn + string.
Variable pretty : string -> poll_exn + string.

(** [int(pretty(channel))] *)
Definition channel_number (channel : string) : poll_exn + Z :=
  and_then (pretty channel) (fun s =>
    match Py.int s with
    | Some n => inr n
    | None => inl (Exn ValueError)
    end).

Definition event_channels_happened (eventcode : string) : poll_exn + list Z :=
  and_then (command (indexes_path eventcode)) (fun ret =>
  and_then (decode ret) (fun output =>
    if PyStr.contains "Error" output then inr []
    else comprehension channel_number (PyStr.words output))).

(** The body shared by [is_motion_detected] and [is_alarm_triggered], after
    [event = self.event_channels_happened(...)]: the test
    ["channels" not in event] on a list of ints, and the comprehension over
    [event.split()], which a list does not have. *)
Definition channels_of_event (event : list Z) : poll_exn + list Z :=
  if negb (py_in (VStr "channels") (map VInt event)) then inr []
  else inl AttributeError.

Definition is_motion_detected : poll_exn + list Z :=
  and_then (event_channels_happened "VideoMotion") channels_of_event.

Definition is_alarm_triggered : poll_exn + list Z :=
  and_then (event_channels_happened "AlarmLocal") channels_of_event.

End Polled.

(** ** The logging filter *)

(** [NoHeaderErrorFilter.filter(record)], the record being its message
    ([record.getMessage()]). *)
Definition NoHeaderErrorFilter_filter (message : string) : bool :=
  negb (PyStr.contains "Failed to parse headers" message).

(** The filters of a logger: instances of [NoHeaderErrorFilter], and others
    given by what they accept. *)
Inductive log_filter : Type :=
| NoHeaderErrorFilter
| OtherFilter (accepts : string -> bool).

(** [isinstance(x, NoHeaderErrorFilter)] *)
Definition is_no_header (x : log_filter) : bool :=
  match x with NoHeaderErrorFilter => true | OtherFilter _ => false end.

(** The first statement of [event_stream]:
    [if not any(isinstance(x, NoHeaderErrorFilter) for x in filters):
       addFilter(NoHeaderErrorFilter())]; [addFilter] appends the new
    object. *)
Definition install_filter (filters : list log_filter) : list log_filter :=
  if existsb is_no_header filters then filters
  else filters ++ [NoHeaderErrorFilter].

Definition filter_accepts (x : log_filter) (message : string) : bool :=
  match x with
  | NoHeaderErrorFilter => NoHeaderErrorFilter_filter message
  | OtherFilter accepts => accepts message
  end.

(** [logging.Filterer.filter]: a record is let through when every filter
    accepts it. *)
Definition logger_accepts (filters : list log_filter) (message : string) : bool :=
  forallb (fun x => filter_accepts x message) filters.

(** ** The request of [event_stream] *)

(** The path [f"eventManager.cgi?action=attach&codes=[{','.join(eventcodes)}]"]. *)
Definition attach_codes (eventcodes : list string) : string :=
  PyStr.join "," eventcodes.

Definition attach_path (eventcodes : list string) : string :=
  "eventManager.cgi?action=attach&codes=[" ++ attach_codes eventcodes ++ "]".

(** * Vocabulary of the further properties *)

(** What a consumer can do with [event_actions]. *)
Definition ea_act (st : ea_state) (a : action) : ea_state :=
  match a with
  | ANext => snd (ea_next st)
  | AClose => ea_close st
  end.

Definition ea_run (acts : list action) (st : ea_state) : ea_state :=
  fold_left ea_act acts st.

(** Every outcome of the run is an item or the end: nothing was raised. *)
Definition clean_run {A : Type} (outs : list (outcome A)) : Prop :=
  Forall (fun o => match o with Yield _ | StopIteration => True | Raise _ => False end) outs.

(** [s] has the characters of the class [p] only. *)
Definition all_chars (p : ascii -> bool) (s : string) : bool :=
  forallb p (list_ascii_of_string s).

(** The loop of a repetition, as [Re.rmatch] runs it (the same text, under
    a name). *)
Definition star_loop {A : Type} (greedy : bool) (a : Re.regex)
    (k : list ascii -> Re.caps -> option A)
  : nat -> list ascii -> Re.caps -> option A :=
  fix loop (n : nat) (s : list ascii) (c : Re.caps) {struct n} : option A :=
    match n with
    | O => k s c
    | S n' =>
        let more :=
          Re.rmatch a s c (fun s' c' =>
            if (length s' <? length s)%nat then loop n' s' c' else None) in
        if greedy
        then match more with Some x => Some x | None => k s c end
        else match k s c with Some x => Some x | None => more end
    end.

(** A payload text written from key=value pairs, and the pairs that can be
    written: a key is not empty and has no equals sign and no line feed, a
    value is not empty and has no semicolon and no line feed. *)
Definition render_pair (kv : string * string) : string := kv.1 ++ "=" ++ kv.2.

Definition render_payload (pairs : list (string * string)) : string :=
  PyStr.join ";" (map render_pair pairs).

Definition key_char (c : ascii) : bool :=
  negb (Ascii.eqb c "="%char) && negb (Ascii.eqb c Py.LF).

Definition value_char (c : ascii) : bool :=
  negb (Ascii.eqb c ";"%char) && negb (Ascii.eqb c Py.LF).

Definition clean_pair (kv : string * string) : bool :=
  negb (Py.is_empty kv.1) && all_chars key_char kv.1
  && negb (Py.is_empty kv.2) && all_chars value_char kv.2.

(** A token of the data blob: a quoted string without quote and backslash
    inside, or a bare run of characters that are neither white space nor a
    quote. *)
Inductive token : Type :=
| Quoted (s : string)
| Bare (s : string).

Definition token_text (t : token) : string :=
  match t with Quoted s => q s | Bare s => s end.

Definition token_value (t : token) : string :=
  match t with Quoted s | Bare s => s end.

Definition clean_token (t : token) : bool :=
  match t with
  | Quoted s => all_chars not_quote_backslash s
  | Bare s => negb (Py.is_empty s) && all_chars not_space_quote s
  end.

(** A data blob written from pairs of tokens, one blank between pairs. *)
Definition render_entry (kv : token * token) : string :=
  token_text kv.1 ++ " : " ++ token_text kv.2.

Definition render_data (entries : list (token * token)) : string :=
  PyStr.join " " (map render_entry entries).

(** [str(n)] for a natural number. *)
Definition decimal (n : nat) : string := NilEmpty.string_of_uint (Nat.to_uint n).

(** Replies of the camera to the polled requests, for the examples. *)
Definition error_reply : string := "x=1 Error: bad y".
Definition blank_reply : string := " " ++ CRLF.
Definition no_pretty (s : string) : poll_exn + string := inl (Exn (KeyError "pretty")).
Definition pretty_field (s : string) : poll_exn + string :=
  match Py.split "="%char s !! 1%nat with
  | Some x => inr x
  | None => inl (Exn IndexError)
  end.
Definition channels_reply : string := "channels[0]=0" ++ CRLF ++ "channels[1]=2".
Definition bad_channels_reply : string := "channels[0]=0 channels[1] channels[2]=x".

(** How one [next] moves the count of valid headers seen: an item takes
    one header, the end takes none, and a failure at most one. *)
Definition header_step {A : Type} (o : outcome A) (before after : nat) : Prop :=
  match o with
  | Yield _ => after = S before
  | StopIteration => after = before
  | Raise _ => (before <= after <= S before)%nat
  end.

(** What holds of [event_actions] and its inner generator on every path. *)
Definition ea_session (t0 : list op) (st : ea_state) : Prop :=
  session t0 (ea_source st)
  /\ match ea_pc_of st with
     | EaStart => es_pc_of (ea_source st) = EsStart
     | EaSuspended => es_pc_of (ea_source st) = EsSuspended
     | EaDone => es_pc_of (ea_source st) <> EsSuspended
     end.

(** A transport that fails with an exception outside the [except] clause. *)
Definition os_error : exn := OtherError "OSError".
Definition os_error_response : Response :=
  mkResponse (wire ("Content-Length: 3" ++ CRLF ++ "abc" ++ "--my"))
    (Some os_error) None [].

(** A body whose second header announces more than is left. *)
Definition cut_response : Response :=
  mkResponse
    (wire ("Content-Length: 3" ++ CRLF ++ "abc" ++ "Content-Length: 5" ++ CRLF))
    None None [].

(** ** Texts as a camera writes them

    The inverse direction of the decoder, for the round trips: header
    lines, chunks, key=value texts and data blobs written out, and the
    classes of characters they are written from. *)

(** The characters other than [x]. *)
Definition not_char (x c : ascii) : bool := negb (Ascii.eqb c x).

Definition not_space (c : ascii) : bool := negb (Py.isspace c).

(** A digit of the decimal notation. *)
Definition is_digit (c : ascii) : bool :=
  match Py.digit_val c with Some _ => true | None => false end.

(** [k] blanks. *)
Fixpoint blanks (k : nat) : string :=
  match k with
  | O => EmptyString
  | S k' => String " "%char (blanks k')
  end.

(** A header line: the name in any letter case, the colon, blanks, and the
    count in decimal. *)
Definition write_header (name : string) (k n : nat) : string :=
  name ++ ":" ++ blanks k ++ decimal n.

(** A chunk: the header line, CR LF, the payload; and a series of chunks. *)
Definition write_chunk (name : string) (k : nat) (p : string) : string :=
  write_header name k (String.length p) ++ CRLF ++ p.

Fixpoint write_chunks (name : string) (k : nat) (ps : list string) : string :=
  match ps with
  | [] => EmptyString
  | p :: ps' => write_chunk name k p ++ write_chunks name k ps'
  end.

Definition written_chunk (name : string) (k : nat) (p : string) : chunk :=
  mkChunk [] (wire (write_header name k (String.length p))) p.

(** A count [int] takes: recent interpreters refuse a decimal string of
    more than 4300 digits, which [Py.int] leaves out. *)
Definition within_int_limit (n : nat) : Prop :=
  (N.of_nat (String.length (decimal n)) <=? 4300)%N = true.

(** A payload that can be announced and read: not empty, and of a length
    [int] takes. *)
Definition sendable (p : string) : Prop :=
  Py.is_empty p = false /\ within_int_limit (String.length p).

(** The captures of a match of one of the two patterns: group 1 and
    group 2. *)
Definition kv_caps (k v : list ascii) : Re.caps := [(2%nat, v); (1%nat, k)].

Definition pair_caps (kv : string * string) : Re.caps :=
  kv_caps (wire kv.1) (wire kv.2).

(** Where a class stops: at the end, or before a character outside it. *)
Definition class_stops (p : ascii -> bool) (rest : list ascii) : Prop :=
  match rest with
  | [] => True
  | b :: _ => p b = false
  end.

Definition token_chars (t : token) : list ascii := wire (token_text t).

(** Where a token ends: a bare token at the end, before white space or
    before a quote; a quoted token anywhere. *)
Definition token_stops (t : token) (rest : list ascii) : Prop :=
  match t with
  | Quoted _ => True
  | Bare _ => class_stops not_space_quote rest
  end.

Definition clean_entry (e : token * token) : bool :=
  clean_token e.1 && clean_token e.2.

Definition entry_chars (e : token * token) : list ascii :=
  token_chars e.1 ++ " "%char :: ":"%char :: " "%char :: token_chars e.2.

Definition entry_caps (e : token * token) : Re.caps :=
  kv_caps (token_chars e.1) (token_chars e.2).

Definition entry_texts (e : token * token) : string * string :=
  (token_text e.1, token_text e.2).

(** What an entry of the blob stands for. *)
Definition entry_insert (d : gmap string string) (e : token * token)
  : gmap string string :=
  <[token_value e.1 := token_value e.2]> d.

(** Event codes that can be told apart in the request: at least one, and
    none with a comma. *)
Definition plain_codes (eventcodes : list string) : bool :=
  negb (bool_decide (eventcodes = []))
  && forallb (all_chars (not_char ",")) eventcodes.

(** Examples. *)
Definition motion_pairs : list (string * string) :=
  [("Code", "VideoMotion"); ("action", "Start"); ("index", "0")].

Definition sample_entries : list (token * token) :=
  [(Quoted "Object[0]", Bare "1"); (Bare "Name", Quoted "two words")].

Definition sample_codes : list string := ["VideoMotion"; "AlarmLocal"].

(** A payload that looks like a chunk. *)
Definition nested_text : string := "Content-Length: 9" ++ CRLF ++ "Code=x".

(** The encoding [event_stream] reads a response with: the declared one,
    utf-8 when none is declared. *)
Definition reading_encoding (ret : Response) : string :=
  match encoding ret with None => "utf-8" | Some e => e end.

(** What holds of the encoding on every path: the response is untouched
    and not being read, or its encoding is the reading encoding. *)
Definition encoding_settled (ret : Response) (st : es_state) : Prop :=
  (es_ret st = ret /\ es_pc_of st <> EsSuspended)
  \/ (encoding (es_ret st) = Some (reading_encoding ret)
      /\ es_pc_of st <> EsStart).

(** * Properties *)

(** ** The primitives on examples *)

Example strip_ex : Py.strip "  Content-Length: 5 " = "Content-Length: 5".
Proof. reflexivity. Qed.
Example lower_ex : Py.lower "Content-LENGTH: 5" = "content-length: 5".
Proof. reflexivity. Qed.
Example split_ex : Py.split ":" "a:b:c" = ["a"; "b"; "c"].
Proof. reflexivity. Qed.
Example int_ex1 : Py.int " 5" = Some 5%Z. Proof. reflexivity. Qed.
Example int_ex2 : Py.int "-5" = Some (-5)%Z. Proof. reflexivity. Qed.
Example int_ex3 : Py.int "1_0" = Some 10%Z. Proof. reflexivity. Qed.
Example int_ex4 : Py.int "1__0" = None. Proof. reflexivity. Qed.
Example int_ex5 : Py.int "5 x" = None. Proof. reflexivity. Qed.
Example int_ex6 : Py.int "" = None. Proof. reflexivity. Qed.
Example int_ex7 : Py.int "+ 5" = None. Proof. reflexivity. Qed.

Example kv_ex :
  Re.findall2 _REG_PARSE_KEY_VALUE "Code=VideoMotion;action=Start;index=0"
  = [("Code", "VideoMotion"); ("action", "Start"); ("index", "0")].
Proof. vm_compute. reflexivity. Qed.

Example kv_ex2 :
  Re.findall2 _REG_PARSE_KEY_VALUE "a=1;;a=2;b=x=y"
  = [("a", "1"); (";a", "2"); ("b", "x=y")].
Proof. vm_compute. reflexivity. Qed.

Example mj_ex :
  Re.findall2 _REG_PARSE_MALFORMED_JSON (" " ++ q "key one" ++ " : bareValue ")
  = [(q "key one", "bareValue")].
Proof. vm_compute. reflexivity. Qed.

Example es_ex :
  fst (nexts es_next 3
        (event_stream (mkResponse
           (wire ("--myboundary" ++ CRLF ++ "Content-Length: 5" ++ CRLF
                  ++ "a=1;b" ++ CRLF ++ "content-length:3" ++ CRLF ++ "xyz" ++ "par"))
           None None [])))
  = [Yield "a=1;b"; Yield "xyz"; StopIteration].
Proof. vm_compute. reflexivity. Qed.

Example parse_ex : parse_payload motion_text = motion_payload.
Proof. vm_compute. reflexivity. Qed.

(** ** Lists of characters and CRLF *)

Lemma has_crlf_end (l : list ascii) : has_crlf (l ++ [Py.CR; Py.LF]) = true.
Proof.
  induction l as [|a [|b t] IH]; try reflexivity.
  - simpl. destruct (Ascii.eqb a Py.CR); reflexivity.
  - change (has_crlf ((a :: b :: t) ++ [Py.CR; Py.LF]))
      with ((Ascii.eqb a Py.CR && Ascii.eqb b Py.LF)
            || has_crlf ((b :: t) ++ [Py.CR; Py.LF])).
    rewrite IH. apply orb_true_r.
Qed.

Lemma has_crlf_app_l (l1 l2 : list ascii) :
  has_crlf (l1 ++ l2) = false -> has_crlf l1 = false.
Proof.
  induction l1 as [|a [|b t] IH]; try reflexivity.
  change (has_crlf ((a :: b :: t) ++ l2))
    with ((Ascii.eqb a Py.CR && Ascii.eqb b Py.LF) || has_crlf ((b :: t) ++ l2)).
  change (has_crlf (a :: b :: t))
    with ((Ascii.eqb a Py.CR && Ascii.eqb b Py.LF) || has_crlf (b :: t)).
  intros H. apply orb_false_elim in H as [H1 H2].
  rewrite H1, (IH H2). reflexivity.
Qed.

Lemma has_crlf_snoc_cr (l : list ascii) :
  has_crlf (l ++ [Py.CR]) = has_crlf l.
Proof.
  induction l as [|a [|b t] IH]; try reflexivity.
  - simpl. rewrite andb_false_r. reflexivity.
  - change (has_crlf ((a :: b :: t) ++ [Py.CR]))
      with ((Ascii.eqb a Py.CR && Ascii.eqb b Py.LF)
            || has_crlf ((b :: t) ++ [Py.CR])).
    rewrite IH. reflexivity.
Qed.

Lemma last2_snoc2 (l : list ascii) (a b : ascii) : last2 (l ++ [a; b]) = [a; b].
Proof.
  unfold last2. rewrite length_app. simpl.
  replace (length l + 2 - 2)%nat with (length l) by lia.
  apply drop_app_length.
Qed.

Lemma last2_crlf (l : list ascii) :
  last2 l = [Py.CR; Py.LF] -> has_crlf l = true.
Proof.
  unfold last2. intros H.
  rewrite <- (take_drop (length l - 2) l), H. apply has_crlf_end.
Qed.

(** A character that does not complete a CR LF pair is only buffered. *)
Lemma el_step_quiet (line : list ascii) (c : ascii) :
  has_crlf (line ++ [c]) = false -> el_step line c = (line ++ [c], None).
Proof.
  intros H. unfold el_step. rewrite bool_decide_eq_false_2; [reflexivity|].
  intros E. apply last2_crlf in E. congruence.
Qed.

(** The LF after a CR completes the line. *)
Lemma el_step_emit (line : list ascii) :
  el_step (line ++ [Py.CR]) Py.LF
  = (line ++ [Py.CR; Py.LF],
     Some (Py.strip (string_of_list_ascii (line ++ [Py.CR; Py.LF])))).
Proof.
  unfold el_step. rewrite <- app_assoc. simpl.
  rewrite bool_decide_eq_true_2; [reflexivity | apply last2_snoc2].
Qed.

Lemma reads_S (n : nat) (tr : list op) : reads n (OpRead :: tr) = reads (S n) tr.
Proof.
  unfold reads. change (OpRead :: tr) with ([OpRead] ++ tr).
  rewrite app_assoc. f_equal.
  change [OpRead] with (repeat OpRead 1). rewrite <- repeat_app.
  f_equal. lia.
Qed.

Lemma reads_add (n m : nat) (tr : list op) :
  reads n (reads m tr) = reads (n + m) tr.
Proof. unfold reads. rewrite app_assoc, <- repeat_app. reflexivity. Qed.

(** ** The frame reader over one line *)

Section Loops.
Variables (f : option exn) (enc : option string).

(** Characters that complete no line are buffered one by one. *)
Lemma el_loop_quiet (p rest line : list ascii) (tr : list op) :
  has_crlf (line ++ p) = false ->
  el_loop f enc line (p ++ rest) tr
  = el_loop f enc (line ++ p) rest (reads (length p) tr).
Proof.
  revert line tr. induction p as [|c p IH]; intros line tr H.
  - rewrite app_nil_r. reflexivity.
  - simpl. rewrite el_step_quiet.
    + rewrite IH.
      * rewrite <- app_assoc, reads_S. reflexivity.
      * rewrite <- app_assoc. exact H.
    + apply has_crlf_app_l with (l2 := p). rewrite <- app_assoc. exact H.
Qed.

Lemma es_loop_quiet (p rest line : list ascii) (tr : list op) :
  has_crlf (line ++ p) = false ->
  es_loop f enc line (p ++ rest) tr
  = es_loop f enc (line ++ p) rest (reads (length p) tr).
Proof.
  revert line tr. induction p as [|c p IH]; intros line tr H.
  - rewrite app_nil_r. reflexivity.
  - simpl. rewrite el_step_quiet.
    + rewrite IH.
      * rewrite <- app_assoc, reads_S. reflexivity.
      * rewrite <- app_assoc. exact H.
    + apply has_crlf_app_l with (l2 := p). rewrite <- app_assoc. exact H.
Qed.

(** One CRLF-terminated line read from an empty buffer. *)
Lemma el_loop_line (b rest : list ascii) (tr : list op) :
  has_crlf b = false ->
  el_loop f enc [] (b ++ Py.CR :: Py.LF :: rest) tr
  = (Yield (line_of b), mkEl ElYielded (b ++ [Py.CR; Py.LF]),
     mkResponse rest f enc (line_trace b tr)).
Proof.
  intros H.
  change (b ++ Py.CR :: Py.LF :: rest) with (b ++ [Py.CR] ++ Py.LF :: rest).
  rewrite app_assoc, el_loop_quiet by (simpl; rewrite has_crlf_snoc_cr; exact H).
  simpl app at 1. simpl el_loop. rewrite el_step_emit.
  unfold line_trace, line_of. rewrite length_app. simpl length.
  replace (length b + 2)%nat with (S (length b + 1)) by lia. reflexivity.
Qed.

Lemma es_loop_line (b rest : list ascii) (tr : list op) :
  has_crlf b = false ->
  es_loop f enc [] (b ++ Py.CR :: Py.LF :: rest) tr
  = if is_header (line_of b)
    then es_chunk (line_of b) (mkEl ElYielded (b ++ [Py.CR; Py.LF]))
           (mkResponse rest f enc (line_trace b tr))
    else es_loop f enc [] rest (line_trace b tr).
Proof.
  intros H.
  change (b ++ Py.CR :: Py.LF :: rest) with (b ++ [Py.CR] ++ Py.LF :: rest).
  rewrite app_assoc, es_loop_quiet by (simpl; rewrite has_crlf_snoc_cr; exact H).
  simpl app at 1. simpl es_loop. rewrite el_step_emit.
  unfold line_trace, line_of. rewrite length_app. simpl length.
  replace (length b + 2)%nat with (S (length b + 1)) by lia. reflexivity.
Qed.

(** A CRLF-free remainder is read to the end and dropped. *)
Lemma el_loop_tail (tail : list ascii) (tr : list op) :
  has_crlf tail = false ->
  el_loop f enc [] tail tr = el_loop f enc tail [] (reads (length tail) tr).
Proof.
  intros H. rewrite <- (app_nil_r tail) at 1.
  rewrite el_loop_quiet by exact H. reflexivity.
Qed.

Lemma es_loop_tail (tail : list ascii) (tr : list op) :
  has_crlf tail = false ->
  es_loop f enc [] tail tr = el_loop f enc tail [] (reads (length tail) tr).
Proof.
  intros H. rewrite <- (app_nil_r tail) at 1.
  rewrite es_loop_quiet by exact H. reflexivity.
Qed.
End Loops.



(** ** [str.strip] and the line terminator *)

Lemma string_of_list_ascii_app (l1 l2 : list ascii) :
  string_of_list_ascii (l1 ++ l2)
  = (string_of_list_ascii l1 ++ string_of_list_ascii l2)%string.
Proof. induction l1 as [|a l1 IH]; simpl; [reflexivity | rewrite IH; reflexivity]. Qed.

Lemma rstrip_crlf (s : string) : Py.rstrip (s ++ CRLF) = Py.rstrip s.
Proof.
  induction s as [|c s IH]; [reflexivity|].
  simpl. rewrite IH. reflexivity.
Qed.

Lemma lstrip_crlf (s : string) :
  Py.lstrip (s ++ CRLF)
  = if Py.is_empty (Py.lstrip s) then EmptyString
    else (Py.lstrip s ++ CRLF)%string.
Proof.
  induction s as [|c s IH]; [reflexivity|].
  simpl. destruct (Py.isspace c); [exact IH | reflexivity].
Qed.

Lemma strip_crlf (s : string) : Py.strip (s ++ CRLF) = Py.strip s.
Proof.
  unfold Py.strip. rewrite lstrip_crlf.
  destruct (Py.lstrip s) eqn:E; [reflexivity|].
  simpl Py.is_empty. cbv iota. apply rstrip_crlf.
Qed.

(** The line made of a body is the stripped body: the terminator goes with
    the surrounding white space. *)
Lemma line_of_strip (b : list ascii) :
  line_of b = Py.strip (string_of_list_ascii b).
Proof. unfold line_of. rewrite string_of_list_ascii_app. apply strip_crlf. Qed.

(** ** Framed character sequences *)

(** Every character sequence is framed in this way. *)
Lemma frame_complete (cs : list ascii) :
  exists bodies tail,
    cs = frame bodies tail /\ Forall crlf_free bodies /\ crlf_free tail.
Proof.
  remember (length cs) as n eqn:Hn.
  revert cs Hn. induction n as [n IH] using lt_wf_ind. intros cs Hn.
  destruct cs as [|c t].
  { exists [], []. repeat split. constructor. }
  destruct t as [|d t'].
  { exists [], [c]. repeat split. constructor. }
  destruct (Ascii.eqb c Py.CR && Ascii.eqb d Py.LF) eqn:E.
  - apply andb_true_iff in E as [Ec Ed].
    apply Ascii.eqb_eq in Ec, Ed. subst c d.
    destruct (IH (length t')) with (cs := t') as (bs & tl & -> & Hb & Ht);
      [simpl in Hn; lia | reflexivity |].
    exists ([] :: bs), tl. repeat split; [|exact Ht].
    constructor; [reflexivity | exact Hb].
  - destruct (IH (length (d :: t'))) with (cs := d :: t')
      as (bs & tl & Heq & Hb & Ht); [simpl in *; lia | reflexivity |].
    destruct bs as [|b bs].
    + simpl in Heq. subst tl. exists [], (c :: d :: t').
      repeat split; [constructor|].
      unfold crlf_free in *. simpl. simpl in Ht. rewrite E. exact Ht.
    + exists ((c :: b) :: bs), tl. simpl. rewrite Heq. simpl.
      repeat split; [|exact Ht].
      inversion Hb as [|? ? Hb1 Hb2]; subst. constructor; [|exact Hb2].
      unfold crlf_free in *. destruct b as [|b0 b']; [reflexivity|].
      simpl in Heq. injection Heq as -> _.
      simpl. simpl in Hb1. rewrite E. exact Hb1.
Qed.

(** ** C3: the frame reader *)

Lemma el_nexts_frame f enc (bodies : list (list ascii)) (tail : list ascii) :
  Forall crlf_free bodies -> crlf_free tail ->
  forall el tr, el_pc_of el <> ElDone ->
  exists tr',
    nexts el_next1 (S (length bodies))
      (el, mkResponse (frame bodies tail) f enc tr)
    = (map (fun b => Yield (Py.strip (string_of_list_ascii b))) bodies
         ++ [source_end f],
       (mkEl ElDone tail, mkResponse [] f enc tr')).
Proof.
  intros Hb Ht. induction Hb as [|b bs Hb1 Hb2 IH]; intros el tr Hpc.
  - exists (match f with
            | None => OpRead :: reads (length tail) tr
            | Some e => OpRaise e :: OpRead :: reads (length tail) tr
            end).
    simpl. unfold el_next1, el_next. simpl.
    destruct (el_pc_of el); try congruence;
      rewrite el_loop_tail by exact Ht; simpl; destruct f; reflexivity.
  - destruct (IH (mkEl ElYielded (b ++ [Py.CR; Py.LF])) (line_trace b tr))
      as [tr' Htr']; [discriminate|].
    exists tr'.
    change (length (b :: bs)) with (S (length bs)).
    rewrite map_cons, <- app_comm_cons.
    remember (S (length bs)) as n.
    cbn [nexts]. unfold el_next1 at 1, el_next. cbn [fst snd el_pc_of raw fault encoding trace frame].
    destruct (el_pc_of el); try congruence;
      rewrite el_loop_line by exact Hb1; rewrite Htr', line_of_strip; reflexivity.
Qed.

(** C3.  A character sequence is a series of CRLF-terminated bodies, none
    of which contains CR LF, and an unterminated rest.  The frame reader
    yields one string per body, at its CR LF and nowhere else: the body with
    the terminator and the surrounding white space stripped, each line
    starting from an empty buffer.  At the end of the source the reader ends
    without an error; the unterminated rest stays in the buffer and is never
    yielded, and later calls yield nothing. *)
Theorem event_lines_frames :
  (forall (bodies : list (list ascii)) (tail : list ascii) enc tr,
      Forall crlf_free bodies -> crlf_free tail ->
      exists st,
        nexts el_next1 (S (length bodies))
          (_event_lines (mkResponse (frame bodies tail) None enc tr))
        = (map (fun b => Yield (Py.strip (string_of_list_ascii b))) bodies
             ++ [StopIteration], st)
        /\ el_pc_of st.1 = ElDone /\ el_line st.1 = tail /\ raw st.2 = []
        /\ forall n, nexts el_next1 n st = (repeat StopIteration n, st))
  /\ (forall cs : list ascii,
         exists bodies tail,
           cs = frame bodies tail /\ Forall crlf_free bodies /\ crlf_free tail).
Proof.
  split; [|exact frame_complete].
  intros bodies tail enc tr Hb Ht.
  destruct (el_nexts_frame None enc bodies tail Hb Ht (mkEl ElStart []) tr)
    as [tr' H]; [discriminate|].
  eexists. split; [exact H|]. repeat split.
  intros n. induction n as [|n IH]; [reflexivity|].
  simpl. simpl in IH. rewrite IH. reflexivity.
Qed.

Lemma event_lines_frames_witness :
  fst (nexts el_next1 3
         (_event_lines
            (mkResponse (wire ("  --myboundary " ++ CRLF ++ CRLF ++ "partial"))
               None None [])))
  = [Yield "--myboundary"; Yield ""; StopIteration].
Proof.
  destruct event_lines_frames as [H _].
  destruct (H [wire "  --myboundary "; []] (wire "partial") None [])
    as (st & Hn & _); [repeat constructor | reflexivity |].
  change (length [wire "  --myboundary "; []]) with 2%nat in Hn.
  change (frame [wire "  --myboundary "; []] (wire "partial"))
    with (wire ("  --myboundary " ++ CRLF ++ CRLF ++ "partial")) in Hn.
  rewrite Hn. reflexivity.
Defined.

(** ** Chunks on the wire *)

Lemma es_live_start (ret : Response) : es_live (event_stream ret).
Proof. split; [left; reflexivity | discriminate]. Qed.

Lemma es_next_live (st : es_state) :
  es_live st ->
  es_next st
  = es_exit (es_loop (fault (es_store st)) (encoding (es_store st)) []
               (raw (es_store st)) (trace (es_store st))).
Proof.
  intros [[H|H] Hel]; unfold es_next, es_store, es_for; rewrite H;
    destruct (el_pc_of (es_lines st)); try congruence; reflexivity.
Qed.

Section Chunks.
Variables (f : option exn) (enc : option string).

(** Lines that are not headers are read and dropped. *)
Lemma es_loop_noise (bodies : list (list ascii)) (rest : list ascii) tr :
  Forall noise_line bodies ->
  es_loop f enc [] (frame bodies rest) tr
  = es_loop f enc [] rest (lines_trace bodies tr).
Proof.
  intros H. revert tr. induction H as [|b bs [Hb1 Hb2] _ IH]; intros tr.
  - reflexivity.
  - simpl. rewrite es_loop_line by exact Hb1. rewrite Hb2. apply IH.
Qed.

Lemma read_sized_exact (p : string) (rest : list ascii) tr :
  (0 < String.length p)%nat ->
  read_sized (Z.of_nat (String.length p)) (mkResponse (wire p ++ rest) f enc tr)
  = (Yield p, mkResponse rest f enc (OpRead :: tr)).
Proof.
  intros Hp. unfold read_sized. cbn [raw fault encoding trace].
  assert (Hlen : length (wire p) = String.length p).
  { unfold wire. clear Hp. induction p as [|a p IH]; simpl;
      [reflexivity | rewrite IH; reflexivity]. }
  destruct (Z.eqb_spec (Z.of_nat (String.length p)) 0) as [H|_]; [lia|].
  destruct (Z.ltb_spec 0 (Z.of_nat (String.length p))) as [_|H]; [|lia].
  rewrite Nat2Z.id.
  destruct (Nat.leb_spec (String.length p) (length (wire p ++ rest)))
    as [_|H]; [|rewrite length_app in H; lia].
  cbn [andb].
  rewrite <- Hlen, take_app_length, drop_app_length.
  unfold wire. rewrite string_of_list_ascii_of_string. reflexivity.
Qed.

(** A header line and its payload: one yield, by one sized read. *)
Lemma es_loop_header (h : list ascii) (p : string) (rest : list ascii) tr :
  header_line h (Z.of_nat (String.length p)) ->
  es_loop f enc [] (h ++ Py.CR :: Py.LF :: wire p ++ rest) tr
  = (Yield p, mkEl ElYielded (h ++ [Py.CR; Py.LF]),
     mkResponse rest f enc (OpRead :: line_trace h tr)).
Proof.
  intros (H1 & H2 & H3 & H4).
  rewrite es_loop_line by exact H1. rewrite H2.
  unfold es_chunk. rewrite H3, read_sized_exact by lia. reflexivity.
Qed.

Lemma es_loop_chunk (c : chunk) (rest : list ascii) tr :
  wf_chunk c ->
  es_loop f enc [] (wire_chunk c rest) tr
  = (Yield (payload c), mkEl ElYielded (header c ++ [Py.CR; Py.LF]),
     mkResponse rest f enc (chunk_trace c tr)).
Proof.
  intros [Hn Hh]. unfold wire_chunk.
  rewrite es_loop_noise by exact Hn. apply es_loop_header, Hh.
Qed.
End Chunks.

(** ** C1: one record per header *)

Lemma lines_seen_reads n tr : lines_seen (reads n tr) = lines_seen tr.
Proof. induction n; simpl; auto. Qed.

Lemma headers_seen_reads n tr : headers_seen (reads n tr) = headers_seen tr.
Proof. induction n; simpl; auto. Qed.

Lemma lines_seen_noise bodies tr :
  lines_seen (lines_trace bodies tr) = (length bodies + lines_seen tr)%nat.
Proof.
  revert tr. induction bodies as [|b bs IH]; intros tr; [reflexivity|].
  simpl. rewrite IH. unfold line_trace. simpl. rewrite lines_seen_reads. lia.
Qed.

Lemma headers_seen_noise bodies tr :
  Forall noise_line bodies ->
  headers_seen (lines_trace bodies tr) = headers_seen tr.
Proof.
  intros H. revert tr. induction H as [|b bs [_ Hb] _ IH]; intros tr;
    [reflexivity|].
  cbn [lines_trace]. rewrite IH. unfold line_trace.
  cbn [headers_seen]. unfold valid_header.
  rewrite Hb, headers_seen_reads. reflexivity.
Qed.

Lemma lines_seen_chunks cs tr :
  lines_seen (chunks_trace cs tr)
  = (length cs + length (flat_map noise cs) + lines_seen tr)%nat.
Proof.
  revert tr. induction cs as [|c cs IH]; intros tr; [reflexivity|].
  simpl. rewrite IH. unfold chunk_trace, line_trace. simpl.
  rewrite lines_seen_reads, lines_seen_noise, length_app. lia.
Qed.

Lemma headers_seen_chunks cs tr :
  Forall wf_chunk cs ->
  headers_seen (chunks_trace cs tr) = (length cs + headers_seen tr)%nat.
Proof.
  intros H. revert tr.
  induction H as [|c cs [Hn (_ & H2 & H3 & _)] _ IH]; intros tr;
    [reflexivity|].
  cbn [chunks_trace]. rewrite IH. unfold chunk_trace, line_trace.
  cbn [headers_seen]. unfold valid_header. rewrite H2, H3, headers_seen_reads.
  rewrite headers_seen_noise by exact Hn. simpl. lia.
Qed.

(** After the last chunk: lines that are not headers and an unterminated
    rest end the generator. *)
Lemma es_next_end (st : es_state) f enc tr
    (tn : list (list ascii)) (partial : list ascii) :
  es_live st ->
  es_store st = mkResponse (frame tn partial) f enc tr ->
  Forall noise_line tn -> crlf_free partial ->
  es_next st
  = (stream_end f,
     mkEs EsDone (mkEl ElDone partial)
       (mkResponse [] f enc
          (OpClose :: end_trace f (reads (length partial) (lines_trace tn tr))))).
Proof.
  intros Hlive Hst Hn Hp.
  rewrite es_next_live by exact Hlive. rewrite Hst. simpl.
  rewrite es_loop_noise by exact Hn.
  rewrite es_loop_tail by exact Hp.
  destruct f; reflexivity.
Qed.

Lemma es_nexts_done (st : es_state) (n : nat) :
  es_pc_of st = EsDone ->
  nexts es_next n st = (repeat StopIteration n, st).
Proof.
  intros H. induction n as [|n IH]; [reflexivity|].
  simpl. unfold es_next at 1. rewrite H, IH. reflexivity.
Qed.

(** A series of well-formed chunks: one item per chunk, then the end. *)
Lemma es_nexts_chunks f enc (tn : list (list ascii)) (partial : list ascii)
    (cs : list chunk) :
  Forall wf_chunk cs -> Forall noise_line tn -> crlf_free partial ->
  forall st tr,
    es_live st ->
    es_store st = mkResponse (wire_chunks cs (frame tn partial)) f enc tr ->
    nexts es_next (S (length cs)) st
    = (map (fun c => Yield (payload c)) cs ++ [stream_end f],
       mkEs EsDone (mkEl ElDone partial)
         (mkResponse [] f enc
            (OpClose :: end_trace f
               (reads (length partial)
                  (lines_trace tn (chunks_trace cs tr)))))).
Proof.
  intros Hcs Hn Hp. induction Hcs as [|c cs Hc _ IH]; intros st tr Hlive Hst.
  - cbn [length nexts map app wire_chunks chunks_trace] in *.
    rewrite (es_next_end st f enc tr tn partial) by assumption. reflexivity.
  - change (length (c :: cs)) with (S (length cs)).
    remember (S (length cs)) as n.
    cbn [nexts map app wire_chunks chunks_trace] in *.
    rewrite es_next_live by exact Hlive. rewrite Hst.
    cbn [raw fault encoding trace].
    rewrite es_loop_chunk by exact Hc. cbn [es_exit].
    subst n. rewrite (IH _ (chunk_trace c tr)); [reflexivity | | reflexivity].
    split; [right; reflexivity | discriminate].
Qed.

(** *** The records of [event_actions] *)

Lemma ea_nexts_of_es (infos : list string) :
  Forall has_code infos ->
  forall (pc : ea_pc) (es es' : es_state) (last : outcome string),
    pc <> EaDone ->
    last = StopIteration \/ (exists e, last = Raise e) ->
    nexts es_next (S (length infos)) es = (map Yield infos ++ [last], es') ->
    nexts ea_next (S (length infos)) (mkEa pc es)
    = (map (fun i => Yield (record_of i)) infos ++ [pass last],
       mkEa EaDone es').
Proof.
  intros H. induction H as [|i infos [code Hi] _ IH];
    intros pc es es' last Hpc Hlast Hes.
  - cbn [length nexts map app] in *.
    destruct (es_next es) as [o es1] eqn:E.
    injection Hes as -> ->.
    unfold ea_next. cbn [ea_pc_of ea_source]. rewrite E.
    destruct pc; try congruence;
      destruct Hlast as [-> | [e ->]]; reflexivity.
  - change (length (i :: infos)) with (S (length infos)) in *.
    remember (S (length infos)) as n.
    cbn [nexts map app] in *.
    destruct (es_next es) as [o es1] eqn:E.
    destruct (nexts es_next n es1) as [os es2] eqn:E2.
    injection Hes as -> -> ->.
    unfold ea_next at 1. cbn [ea_pc_of ea_source]. rewrite E.
    unfold record_of at 1. rewrite Hi. cbn [default].
    subst n.
    destruct pc; try congruence;
      rewrite (IH EaSuspended es1 es' last) by (auto; discriminate);
      reflexivity.
Qed.

Lemma count_yields_map {A B : Type} (g : A -> B) (l : list A) (o : outcome B) :
  is_yield o = false ->
  count_yields (map (fun a => Yield (g a)) l ++ [o]) = length l.
Proof.
  intros Ho. unfold count_yields. induction l as [|a l IH]; simpl.
  - rewrite Ho. reflexivity.
  - f_equal. exact IH.
Qed.

(** C1.  A well-formed chunk sequence is a series of chunks, each made of
    lines that are not headers, a header line with a positive count and a
    payload of that many characters, followed by lines that are not headers
    and an unterminated rest.  On such a body [event_stream] yields the
    payloads of the chunks in order and then ends, so the number of items
    equals the number of lines handed over by the frame reader that are
    headers with a count; the other lines (counted by [lines_seen]) yield
    nothing.  When every payload has a [Code], [event_actions] yields one
    record per chunk in the same way. *)
Theorem records_match_headers (cs : list chunk) (tn : list (list ascii))
    (partial : list ascii) (enc : option string) :
  Forall wf_chunk cs -> Forall noise_line tn -> crlf_free partial ->
  let ret := mkResponse (wire_chunks cs (frame tn partial)) None enc [] in
  let run := nexts es_next (S (length cs)) (event_stream ret) in
  run.1 = map (fun c => Yield (payload c)) cs ++ [StopIteration]
  /\ count_yields run.1 = headers_seen (trace (es_ret run.2))
  /\ lines_seen (trace (es_ret run.2))
     = (length cs + length (flat_map noise cs) + length tn)%nat
  /\ (Forall (fun c => has_code (payload c)) cs ->
      let run' := nexts ea_next (S (length cs)) (event_actions ret) in
      run'.1 = map (fun c => Yield (record_of (payload c))) cs ++ [StopIteration]
      /\ count_yields run'.1
         = headers_seen (trace (es_ret (ea_source run'.2)))).
Proof.
  intros Hcs Hn Hp ret run.
  pose proof (es_nexts_chunks None (encoding (es_enter ret)) tn partial cs
                Hcs Hn Hp (event_stream ret) [OpOpen] (es_live_start ret)
                eq_refl) as H.
  fold run in H.
  assert (Hh : headers_seen (trace (es_ret run.2)) = length cs).
  { rewrite H. cbn [snd es_ret trace end_trace headers_seen].
    rewrite headers_seen_reads, headers_seen_noise by exact Hn.
    rewrite headers_seen_chunks by exact Hcs. simpl. lia. }
  split; [rewrite H; reflexivity|].
  split; [rewrite Hh, H; cbn [fst];
          apply (count_yields_map payload); reflexivity|].
  split.
  { rewrite H. cbn [snd es_ret trace end_trace lines_seen].
    rewrite lines_seen_reads, lines_seen_noise, lines_seen_chunks. simpl. lia. }
  intros Hcode run'.
  assert (H' : run' = (map (fun c => Yield (record_of (payload c))) cs
                         ++ [StopIteration], mkEa EaDone run.2)).
  { unfold run', event_actions.
    pose proof (ea_nexts_of_es (map payload cs)) as E.
    rewrite length_map, !map_map in E.
    apply (E ltac:(apply Forall_map; exact Hcode) EaStart (event_stream ret)
             run.2 StopIteration);
      [discriminate | left; reflexivity |].
    fold run. rewrite H. reflexivity. }
  rewrite H'. cbn [fst snd ea_source]. split; [reflexivity|].
  rewrite Hh. apply (count_yields_map (fun c => record_of (payload c))).
  reflexivity.
Qed.

Lemma records_match_headers_witness :
  let ret := mkResponse (wire two_chunks_wire) None None [] in
  Forall wf_chunk two_chunks
  /\ fst (nexts es_next 3 (event_stream ret))
     = [Yield start_text; Yield stop_text; StopIteration]
  /\ headers_seen (trace (es_ret (snd (nexts es_next 3 (event_stream ret))))) = 2%nat
  /\ lines_seen (trace (es_ret (snd (nexts es_next 3 (event_stream ret))))) = 10%nat
  /\ count_yields (fst (nexts ea_next 3 (event_actions ret))) = 2%nat.
Proof.
  intros ret.
  assert (Hwf : Forall wf_chunk two_chunks).
  { repeat constructor; vm_compute; reflexivity. }
  assert (Hn : Forall noise_line [[]; []]).
  { repeat constructor. }
  assert (Hcode : Forall (fun c => has_code (payload c)) two_chunks).
  { repeat constructor; vm_compute; eexists; reflexivity. }
  assert (E : wire two_chunks_wire
              = wire_chunks two_chunks (frame [[]; []] (wire "--myb"))).
  { vm_compute. reflexivity. }
  destruct (records_match_headers two_chunks [[]; []] (wire "--myb") None
              Hwf Hn eq_refl)
    as (H1 & H2 & H3 & H4).
  destruct (H4 Hcode) as [H5 H6].
  unfold ret. rewrite E.
  split; [exact Hwf|]. split; [exact H1|].
  split; [exact (eq_trans (eq_sym H2) (f_equal count_yields H1))|].
  split; [exact H3|].
  exact (f_equal count_yields H5).
Defined.

(** ** C2: the motion example *)

(** C2.  The payload text
    Code=VideoMotion;action=Start;index=0;data=QObject[0]Q : Q1Q (Q the
    double quote) decodes to the mapping with Code, action and index as
    strings and data as the nested mapping from Object[0] to 1, and when
    [event_stream] delivers that text [event_actions] yields the pair of
    the string VideoMotion and that mapping.  The data sub-parser alone
    turns a quoted key and a bare value into an unquoted pair. *)
Theorem motion_record_decoded (st : ea_state) (es' : es_state) :
  ea_pc_of st <> EaDone ->
  es_next (ea_source st) = (Yield motion_text, es') ->
  parse_payload motion_text = motion_payload
  /\ ea_next st = (Yield (PStr "VideoMotion", motion_payload), mkEa EaSuspended es')
  /\ parse_data (" " ++ q "key one" ++ " : bareValue ")
     = {["key one" := "bareValue"]}.
Proof.
  intros Hpc Hes.
  assert (P : parse_payload motion_text = motion_payload)
    by (vm_compute; reflexivity).
  split; [exact P|]. split; [|vm_compute; reflexivity].
  unfold ea_next. rewrite Hes. cbv zeta. rewrite P.
  replace (motion_payload !! "Code") with (Some (PStr "VideoMotion"))
    by (vm_compute; reflexivity).
  destruct (ea_pc_of st); try congruence; reflexivity.
Qed.

Lemma motion_record_decoded_witness :
  fst (ea_next (event_actions motion_response))
  = Yield (PStr "VideoMotion", motion_payload).
Proof.
  assert (H : es_next (ea_source (event_actions motion_response))
              = (Yield motion_text,
                 snd (es_next (ea_source (event_actions motion_response)))))
    by (vm_compute; reflexivity).
  destruct (motion_record_decoded (event_actions motion_response) _
              ltac:(discriminate) H) as (_ & H2 & _).
  rewrite H2. reflexivity.
Defined.

(** ** C9 and C10: the mappings *)

Section FoldInsert.
Context {V : Type} (key : string * string -> string) (val : string * string -> V).

(** A key inserted by no later pair keeps its value. *)
Lemma foldl_put_keep (l : list (string * string)) (m : gmap string V) k :
  ~ In k (map key l) -> foldl (put key val) m l !! k = m !! k.
Proof.
  revert m. induction l as [|kv l IH]; intros m Hk; [reflexivity|].
  simpl in *. rewrite IH by tauto.
  unfold put. apply lookup_insert_ne. tauto.
Qed.

(** The last pair with a given key decides the value. *)
Lemma foldl_put_last (l1 l2 : list (string * string)) kv (m : gmap string V) :
  ~ In (key kv) (map key l2) ->
  foldl (put key val) m (l1 ++ kv :: l2) !! key kv = Some (val kv).
Proof.
  intros Hk. rewrite foldl_app. simpl.
  rewrite foldl_put_keep by exact Hk.
  unfold put. apply lookup_insert_eq.
Qed.

(** Every entry comes from the start value or from some pair. *)
Lemma foldl_put_origin (l : list (string * string)) (m : gmap string V) k v :
  foldl (put key val) m l !! k = Some v ->
  m !! k = Some v \/ exists kv, In kv l /\ k = key kv /\ v = val kv.
Proof.
  revert m. induction l as [|kv l IH]; intros m H; [left; exact H|].
  simpl in H. apply IH in H as [H | (kv' & Hin & Hk & Hv)].
  - unfold put in H. rewrite lookup_insert in H.
    destruct (decide (key kv = k)) as [E|E].
    + right. exists kv. injection H as <-. split; [left|]; auto.
    + left. exact H.
  - right. exists kv'. split; [right|]; auto.
Qed.
End FoldInsert.

Lemma parse_payload_put (event_info : string) :
  parse_payload event_info
  = foldl (put fst (fun kv => payload_value kv.1 kv.2)) ∅
      (payload_pairs event_info).
Proof. reflexivity. Qed.

Lemma parse_data_put (Value : string) :
  parse_data Value
  = foldl (put (fun kv => unquote kv.1) (fun kv => unquote kv.2)) ∅
      (Re.findall2 _REG_PARSE_MALFORMED_JSON Value).
Proof. reflexivity. Qed.

(** C9.  When a key occurs in several key=value pairs of one payload text,
    the mapping holds the value of the last of them, whatever the earlier
    ones were; the same holds inside the data blob, where keys are compared
    after their quotes are removed.  Nothing is rejected: the parser is a
    total function of the text. *)
Theorem last_occurrence_wins (event_info Key Value : string)
    (l1 l2 : list (string * string)) :
  payload_pairs event_info = l1 ++ (Key, Value) :: l2 ->
  ~ In Key (map fst l2) ->
  parse_payload event_info !! Key = Some (payload_value Key Value)
  /\ (Key = "data" -> payload_value Key Value = PDict (parse_data Value))
  /\ (forall (d1 d2 : list (string * string)) (k v : string),
         Re.findall2 _REG_PARSE_MALFORMED_JSON Value = d1 ++ (k, v) :: d2 ->
         ~ In (unquote k) (map (fun kv => unquote kv.1) d2) ->
         parse_data Value !! unquote k = Some (unquote v)).
Proof.
  intros Hp Hk. split; [|split].
  - rewrite parse_payload_put, Hp.
    apply (foldl_put_last fst (fun kv => payload_value kv.1 kv.2) l1 l2
             (Key, Value)), Hk.
  - intros ->. reflexivity.
  - intros d1 d2 k v Hd Hk2. rewrite parse_data_put, Hd.
    apply (foldl_put_last (fun kv => unquote kv.1) (fun kv => unquote kv.2)
             d1 d2 (k, v)), Hk2.
Qed.

Lemma last_occurrence_wins_witness :
  payload_pairs twice_text
  = [("Code", "A"); ("data", twice_blob); ("Code", "B")]
  /\ parse_payload twice_text !! "Code" = Some (PStr "B")
  /\ parse_payload twice_text !! "data" = Some (PDict {["k" := "2"]}).
Proof.
  assert (Hp : payload_pairs twice_text
               = [("Code", "A"); ("data", twice_blob);
                  ("Code", "B")])
    by (vm_compute; reflexivity).
  split; [exact Hp|]. split.
  - destruct (last_occurrence_wins twice_text "Code" "B"
                [("Code", "A"); ("data", twice_blob)] []
                Hp ltac:(simpl; tauto)) as (H & _).
    exact H.
  - destruct (last_occurrence_wins twice_text "data" twice_blob
                [("Code", "A")] [("Code", "B")]
                Hp ltac:(simpl; intros [H|[]]; discriminate))
      as (H1 & H2 & H3).
    rewrite H1, (H2 eq_refl).
    vm_compute. reflexivity.
Defined.

(** ** C10: quotes in the data blob *)

Lemma unquote_no_quote (s : string) : has_quote (unquote s) = false.
Proof.
  unfold unquote. induction s as [|c s IH]; [reflexivity|].
  simpl. destruct (Ascii.eqb c Py.DQUOTE) eqn:E; [exact IH|].
  simpl. rewrite E. exact IH.
Qed.

(** C10.  Every key and every value of the nested mapping is a token of
    the blob with all its double quotes removed, so neither contains a
    double quote, wherever the quote stood in the token: a quoted token
    with an escaped quote inside loses that quote as well and keeps the
    backslash. *)
Theorem data_quotes_removed (Value k v : string) :
  parse_data Value !! k = Some v ->
  has_quote k = false /\ has_quote v = false
  /\ (exists rk rv,
         In (rk, rv) (Re.findall2 _REG_PARSE_MALFORMED_JSON Value)
         /\ k = unquote rk /\ v = unquote rv)
  /\ Re.findall2 _REG_PARSE_MALFORMED_JSON escaped_text
     = [(escaped_key, escaped_value)]
  /\ parse_data escaped_text = {["a\b" := "c\d"]}.
Proof.
  intros H. rewrite parse_data_put in H.
  apply foldl_put_origin in H as [H | ([rk rv] & Hin & -> & ->)];
    [rewrite lookup_empty in H; discriminate|].
  split; [apply unquote_no_quote|]. split; [apply unquote_no_quote|].
  split; [exists rk, rv; auto|].
  split; vm_compute; reflexivity.
Qed.

Lemma data_quotes_removed_witness :
  parse_data escaped_text !! "a\b" = Some "c\d"
  /\ has_quote "a\b" = false /\ has_quote "c\d" = false.
Proof.
  assert (H : parse_data escaped_text !! "a\b" = Some "c\d")
    by (vm_compute; reflexivity).
  destruct (data_quotes_removed escaped_text "a\b" "c\d" H) as (H1 & H2 & _).
  split; [exact H|]. split; [exact H1 | exact H2].
Defined.

(** ** C5: a payload without Code *)

Lemma ea_nexts_done (st : ea_state) (n : nat) :
  ea_pc_of st = EaDone ->
  nexts ea_next n st = (repeat StopIteration n, st).
Proof.
  intros H. induction n as [|n IH]; [reflexivity|].
  simpl. unfold ea_next at 1. rewrite H, IH. reflexivity.
Qed.

(** C5.  When the payload text delivered by [event_stream] decodes to a
    mapping without the key Code, that [next] on [event_actions] raises
    KeyError for Code: the payload is not skipped in favour of a later one.
    The generator is finished, its inner generator closed, and every later
    [next] gives StopIteration. *)
Theorem missing_code_raises (st : ea_state) (event_info : string)
    (es' : es_state) :
  ea_pc_of st <> EaDone ->
  es_next (ea_source st) = (Yield event_info, es') ->
  parse_payload event_info !! "Code" = None ->
  ea_next st = (Raise (KeyError "Code"), mkEa EaDone (es_close es'))
  /\ forall n,
       nexts ea_next n (mkEa EaDone (es_close es'))
       = (repeat StopIteration n, mkEa EaDone (es_close es')).
Proof.
  intros Hpc Hes Hcode. split.
  - unfold ea_next. rewrite Hes. cbv zeta. rewrite Hcode.
    destruct (ea_pc_of st); try congruence; reflexivity.
  - intros n. apply ea_nexts_done. reflexivity.
Qed.

Lemma missing_code_raises_witness :
  parse_payload "a=1" !! "Code" = None
  /\ fst (nexts ea_next 3 (event_actions no_code_response))
     = [Raise (KeyError "Code"); StopIteration; StopIteration].
Proof.
  assert (Hc : parse_payload "a=1" !! "Code" = None) by (vm_compute; reflexivity).
  assert (H : es_next (ea_source (event_actions no_code_response))
              = (Yield "a=1",
                 snd (es_next (ea_source (event_actions no_code_response)))))
    by (vm_compute; reflexivity).
  destruct (missing_code_raises (event_actions no_code_response) "a=1" _
              ltac:(discriminate) H Hc) as [H1 H2].
  split; [exact Hc|].
  change (nexts ea_next 3 (event_actions no_code_response))
    with (let (o, st') := ea_next (event_actions no_code_response) in
          let (os, st'') := nexts ea_next 2 st' in (o :: os, st'')).
  rewrite H1, (H2 2%nat). reflexivity.
Defined.

(** ** C6: a header without a count *)



Lemma prefix_app (p s : string) :
  String.prefix p s = true -> exists t, s = (p ++ t)%string.
Proof.
  revert s. induction p as [|a p IH]; intros s H.
  - exists s. reflexivity.
  - destruct s as [|b s]; simpl in H; [discriminate|].
    destruct (ascii_dec a b) as [->|]; [|discriminate].
    destruct (IH s H) as [t ->]. exists t. reflexivity.
Qed.









(** ** The trace of one step *)

Lemma extends_refl f o tr : extends f o tr tr.
Proof. exists []. simpl. repeat split; tauto. Qed.

Lemma extends_read f o tr tr' : extends f o (OpRead :: tr) tr' -> extends f o tr tr'.
Proof.
  intros (new & -> & H1 & H2 & H3). exists (new ++ [OpRead]).
  rewrite <- app_assoc. split; [reflexivity|].
  split; [rewrite in_app_iff; simpl; intros [H|[H|[]]]; (tauto || discriminate)|].
  split; [rewrite in_app_iff; simpl; intros [H|[H|[]]]; (tauto || discriminate)|].
  intros e H. apply in_app_iff in H as [H|[H|[]]]; [apply H3, H | discriminate].
Qed.

Lemma extends_line f o l tr tr' : extends f o (OpLine l :: tr) tr' -> extends f o tr tr'.
Proof.
  intros (new & -> & H1 & H2 & H3). exists (new ++ [OpLine l]).
  rewrite <- app_assoc. split; [reflexivity|].
  split; [rewrite in_app_iff; simpl; intros [H|[H|[]]]; (tauto || discriminate)|].
  split; [rewrite in_app_iff; simpl; intros [H|[H|[]]]; (tauto || discriminate)|].
  intros e H. apply in_app_iff in H as [H|[H|[]]]; [apply H3, H | discriminate].
Qed.

Lemma extends_raise e tr : extends (Some e) (Raise e) tr (OpRaise e :: tr).
Proof.
  exists [OpRaise e]. split; [reflexivity|].
  split; [simpl; intros [H|[]]; discriminate|].
  split; [simpl; intros [H|[]]; discriminate|].
  intros e' [H|[]]. injection H as ->. split; reflexivity.
Qed.

Lemma read_sized_trace (n : Z) (ret ret' : Response) (o : outcome string) :
  read_sized n ret = (o, ret') ->
  extends (fault ret) o (trace ret) (trace ret').
Proof.
  unfold read_sized. destruct (n =? 0)%Z.
  { intros [= <- <-]. apply extends_read, extends_refl. }
  destruct ((0 <? n)%Z && (Z.to_nat n <=? length (raw ret))%nat).
  { intros [= <- <-]. apply extends_read, extends_refl. }
  destruct (fault ret) as [e|] eqn:Ef.
  - intros [= <- <-]. simpl. apply extends_read, extends_raise.
  - destruct (raw ret); intros [= <- <-]; apply extends_read, extends_refl.
Qed.

(** The outcome of [es_chunk] with a StopIteration of the read turned into
    RuntimeError also fits: no transport exception is involved. *)
Lemma es_chunk_trace (l : string) (el el' : el_state) (ret ret' : Response)
    (o : outcome string) :
  es_chunk l el ret = (o, el', ret') ->
  extends (fault ret) o (trace ret) (trace ret').
Proof.
  unfold es_chunk. destruct (chunk_size l) as [e|n].
  { intros [= <- <- <-]. apply extends_refl. }
  destruct (read_sized n ret) as [o1 ret1] eqn:E.
  apply read_sized_trace in E as (new & Ht & H1 & H2 & H3).
  destruct o1 as [chunk| |e1]; intros [= <- <- <-]; exists new;
    (split; [exact Ht|]); (split; [exact H1|]); (split; [exact H2|]);
    intros e He; destruct (H3 e He) as [Hf Ho]; try discriminate Ho;
    split; assumption.
Qed.

Lemma es_loop_trace f enc (line body : list ascii) (tr : list op)
    (o : outcome string) (el : el_state) (ret : Response) :
  es_loop f enc line body tr = (o, el, ret) -> extends f o tr (trace ret).
Proof.
  revert line tr. induction body as [|c rest IH]; intros line tr.
  - simpl. destruct f as [e|]; intros [= <- <- <-]; simpl.
    + apply extends_read, extends_raise.
    + apply extends_read, extends_refl.
  - simpl. destruct (el_step line c) as [line' [l|]].
    + destruct (is_header l).
      * intros H. apply es_chunk_trace in H. simpl in H.
        apply extends_read, (extends_line _ _ l), H.
      * intros H. apply IH in H. apply extends_read, (extends_line _ _ l), H.
    + intros H. apply IH in H. apply extends_read, H.
Qed.

Lemma es_for_trace (el el' : el_state) (ret ret' : Response)
    (o : outcome string) :
  es_for el ret = (o, el', ret') ->
  extends (fault ret) o (trace ret) (trace ret').
Proof.
  unfold es_for. destruct (el_pc_of el).
  - apply es_loop_trace.
  - apply es_loop_trace.
  - intros [= <- <- <-]. apply extends_refl.
Qed.

(** ** C7: transport errors *)

(** A raise of the transport during the loop ends the step with the
    handled exception.  [pre] is what the step logged before the loop. *)
Lemma es_exit_raise (r : outcome string * el_state * Response)
    (f : option exn) (pre tr0 new : list op) (o : outcome string)
    (st' : es_state) (e : exn) :
  extends f r.1.1 (pre ++ tr0) (trace r.2) ->
  (forall e', ~ In (OpRaise e') pre) ->
  es_exit r = (o, st') ->
  trace (es_ret st') = new ++ tr0 ->
  In (OpRaise e) new ->
  o = Raise (handler e) /\ es_pc_of st' = EsDone.
Proof.
  intros (new1 & Ht1 & _ & _ & H3) Hpre Hexit Ht Hin.
  destruct r as [[o1 el1] ret1]. simpl in Ht1, H3.
  assert (Hin1 : In (OpRaise e) new1).
  { destruct o1 as [x| |e1]; simpl in Hexit; injection Hexit as <- <-;
      simpl in Ht; rewrite Ht1, ?app_comm_cons, app_assoc in Ht;
      apply app_inv_tail in Ht; subst new;
      apply in_app_iff in Hin as [Hin|Hin];
      try (exfalso; exact (Hpre e Hin));
      try exact Hin; destruct Hin as [Hin|Hin];
      [discriminate | exact Hin | discriminate | exact Hin]. }
  destruct (H3 e Hin1) as [_ ->]. simpl in Hexit. injection Hexit as <- <-.
  split; reflexivity.
Qed.

Lemma es_next_raise (st st' : es_state) (o : outcome string) (e : exn)
    (new : list op) :
  es_next st = (o, st') ->
  trace (es_ret st') = new ++ trace (es_ret st) ->
  In (OpRaise e) new ->
  o = Raise (handler e) /\ es_pc_of st' = EsDone.
Proof.
  intros Hn Ht Hin. unfold es_next in Hn.
  destruct (es_pc_of st) eqn:Hpc.
  - (* the first next: the request, then the loop *)
    destruct (es_for (es_lines st) (es_enter (es_ret st))) as [r ret1] eqn:E.
    destruct r as [o1 el1].
    apply es_for_trace in E.
    apply (es_exit_raise (o1, el1, ret1) _ [OpOpen] _ new o st' e E);
      [intros e' [H|[]]; discriminate | exact Hn | exact Ht | exact Hin].
  - destruct (es_for (es_lines st) (es_ret st)) as [r ret1] eqn:E.
    destruct r as [o1 el1].
    apply es_for_trace in E.
    apply (es_exit_raise (o1, el1, ret1) _ [] _ new o st' e E);
      [intros e' [] | exact Hn | exact Ht | exact Hin].
  - injection Hn as <- <-.
    rewrite <- (app_nil_l (trace (es_ret st))) in Ht at 1.
    apply app_inv_tail in Ht. subst new. destruct Hin.
Qed.

(** C7.  When the transport raises an exception [e] of the classes
    RequestException or HTTPError during a [next] on [event_stream] (the
    raise is among the operations that call adds to the trace), the caller
    gets CommError with [e] as argument and as cause, the generator is
    finished and every later [next] gives StopIteration; [event_actions]
    passes the same exception on and is finished as well. *)
Theorem transport_error_wrapped (st st' : es_state) (o : outcome string)
    (e : exn) (new : list op) :
  es_next st = (o, st') ->
  trace (es_ret st') = new ++ trace (es_ret st) ->
  In (OpRaise e) new ->
  is_transport e = true ->
  o = Raise (CommError e e)
  /\ cause_of (CommError e e) = Some e
  /\ es_pc_of st' = EsDone
  /\ (forall n, nexts es_next n st' = (repeat StopIteration n, st'))
  /\ (forall pc, pc <> EaDone ->
        ea_next (mkEa pc st) = (Raise (CommError e e), mkEa EaDone st')
        /\ forall n,
             nexts ea_next n (mkEa EaDone st')
             = (repeat StopIteration n, mkEa EaDone st')).
Proof.
  intros Hn Ht Hin He.
  destruct (es_next_raise st st' o e new Hn Ht Hin) as [Ho Hpc'].
  unfold handler in Ho. rewrite He in Ho. subst o.
  split; [reflexivity|]. split; [reflexivity|]. split; [exact Hpc'|].
  split; [intros n; apply es_nexts_done, Hpc'|].
  intros pc Hpc. split.
  - unfold ea_next. cbn [ea_pc_of ea_source]. rewrite Hn.
    destruct pc; try congruence; reflexivity.
  - intros n. apply ea_nexts_done. reflexivity.
Qed.

Lemma transport_error_wrapped_witness :
  is_transport reset_error = true
  /\ fst (es_next (event_stream reset_response)) = Yield "abc"
  /\ fst (nexts es_next 3 (snd (es_next (event_stream reset_response))))
     = [Raise (CommError reset_error reset_error); StopIteration; StopIteration]
  /\ fst (nexts ea_next 2
            (mkEa EaSuspended (snd (es_next (event_stream reset_response)))))
     = [Raise (CommError reset_error reset_error); StopIteration].
Proof.
  pose (st := snd (es_next (event_stream reset_response))).
  assert (Hn : es_next st = (fst (es_next st), snd (es_next st)))
    by (vm_compute; reflexivity).
  assert (Ht : trace (es_ret (snd (es_next st)))
               = [OpClose; OpRaise reset_error; OpRead; OpRead; OpRead; OpRead;
                  OpRead] ++ trace (es_ret st))
    by (vm_compute; reflexivity).
  destruct (transport_error_wrapped st _ _ reset_error _ Hn Ht
              ltac:(simpl; tauto) eq_refl) as (H1 & _ & H3 & H4 & H5).
  destruct (H5 EaSuspended ltac:(discriminate)) as [H6 H7].
  split; [reflexivity|]. split; [reflexivity|]. fold st. split.
  - change (nexts es_next 3 st)
      with (let (o, st') := es_next st in
            let (os, st'') := nexts es_next 2 st' in (o :: os, st'')).
    rewrite Hn, H1, (H4 2%nat). reflexivity.
  - change (nexts ea_next 2 (mkEa EaSuspended st))
      with (let (o, st') := ea_next (mkEa EaSuspended st) in
            let (os, st'') := nexts ea_next 1 st' in (o :: os, st'')).
    rewrite H6, (H7 1%nat). reflexivity.
Defined.

(** ** C8: the response is released once *)

Lemma quiet_app (a b : list op) : quiet a -> quiet b -> quiet (a ++ b).
Proof.
  intros [H1 H2] [H3 H4]. split; rewrite in_app_iff; tauto.
Qed.

Lemma session_exit (t0 : list op) (new0 : list op) (r : outcome string * el_state * Response)
    (f : option exn) (tr : list op) :
  tr = new0 ++ OpOpen :: t0 -> quiet new0 ->
  extends f r.1.1 tr (trace r.2) ->
  session t0 (snd (es_exit r)).
Proof.
  intros -> Hq (new & Ht & H1 & H2 & _).
  assert (Hq' : quiet (new ++ new0)) by (apply quiet_app; [split|]; assumption).
  destruct r as [[o el] ret]. simpl in Ht.
  destruct o; unfold session; simpl.
  - exists (new ++ new0). rewrite Ht, app_assoc. split; [reflexivity | exact Hq'].
  - right. exists (new ++ new0). rewrite Ht, app_assoc. split; [reflexivity | exact Hq'].
  - right. exists (new ++ new0). rewrite Ht, app_assoc. split; [reflexivity | exact Hq'].
Qed.

(** A step that finishes the generator releases the response. *)
Lemma released_exit (t0 : list op) (new0 : list op)
    (r : outcome string * el_state * Response) (f : option exn) (tr : list op) :
  tr = new0 ++ OpOpen :: t0 -> quiet new0 ->
  extends f r.1.1 tr (trace r.2) ->
  es_pc_of (snd (es_exit r)) = EsDone ->
  released_once t0 (snd (es_exit r)).
Proof.
  intros -> Hq (new & Ht & H1 & H2 & _) Hpc.
  assert (Hq' : quiet (new ++ new0)) by (apply quiet_app; [split|]; assumption).
  destruct r as [[o el] ret]. simpl in Ht.
  destruct o; simpl in Hpc; try discriminate Hpc;
    (split; [reflexivity|]); exists (new ++ new0); simpl;
    rewrite Ht, app_assoc; (split; [reflexivity | exact Hq']).
Qed.

Lemma released_next (t0 : list op) (st : es_state) :
  session t0 st -> es_pc_of st <> EsDone ->
  es_pc_of (snd (es_next st)) = EsDone ->
  released_once t0 (snd (es_next st)).
Proof.
  unfold session, es_next. destruct (es_pc_of st) eqn:Hpc.
  - intros Ht _.
    destruct (es_for (es_lines st) (es_enter (es_ret st))) as [[o el] ret] eqn:E.
    apply es_for_trace in E.
    refine (released_exit t0 [] (o, el, ret) _ _ _ _ E).
    + simpl. rewrite Ht. reflexivity.
    + split; simpl; tauto.
  - intros (new0 & Ht & Hq) _.
    destruct (es_for (es_lines st) (es_ret st)) as [[o el] ret] eqn:E.
    apply es_for_trace in E.
    exact (released_exit t0 new0 (o, el, ret) _ _ Ht Hq E).
  - intros _ H. congruence.
Qed.

Lemma session_next (t0 : list op) (st : es_state) :
  session t0 st -> session t0 (snd (es_next st)).
Proof.
  unfold session at 1, es_next. destruct (es_pc_of st) eqn:Hpc.
  - intros Ht.
    destruct (es_for (es_lines st) (es_enter (es_ret st))) as [[o el] ret] eqn:E.
    apply es_for_trace in E.
    refine (session_exit t0 [] (o, el, ret) _ _ _ _ E).
    + simpl. rewrite Ht. reflexivity.
    + split; simpl; tauto.
  - intros (new0 & Ht & Hq).
    destruct (es_for (es_lines st) (es_ret st)) as [[o el] ret] eqn:E.
    apply es_for_trace in E.
    apply (session_exit t0 new0 (o, el, ret) _ _ Ht Hq E).
  - intros H. unfold session. simpl. rewrite Hpc. exact H.
Qed.

Lemma session_close (t0 : list op) (st : es_state) :
  session t0 st -> session t0 (es_close st).
Proof.
  unfold session at 1, es_close. destruct (es_pc_of st) eqn:Hpc.
  - intros Ht. unfold session. simpl. left. exact Ht.
  - intros (new & Ht & Hq). unfold session. simpl. right.
    exists new. rewrite Ht. split; [reflexivity | exact Hq].
  - intros H. unfold session. rewrite Hpc. exact H.
Qed.

Lemma session_run (t0 : list op) (acts : list action) (st : es_state) :
  session t0 st -> session t0 (es_run acts st).
Proof.
  revert st. induction acts as [|a acts IH]; intros st H; [exact H|].
  simpl. apply IH. destruct a; [apply session_next | apply session_close]; exact H.
Qed.

(** A finished generator stays as it is: no read, no second release. *)
Lemma es_run_done (acts : list action) (st : es_state) :
  es_pc_of st = EsDone -> es_run acts st = st.
Proof.
  intros H. induction acts as [|a acts IH]; [reflexivity|].
  simpl. destruct a; simpl.
  - unfold es_next. rewrite H. exact IH.
  - unfold es_close. rewrite H. exact IH.
Qed.

Lemma es_next_yield_pc (st st' : es_state) (x : string) :
  es_next st = (Yield x, st') -> es_pc_of st' = EsSuspended.
Proof.
  unfold es_next. destruct (es_pc_of st); try discriminate.
  - destruct (es_for _ _) as [[[] el] ret]; simpl; intros [= <- <-] || discriminate.
    reflexivity.
  - destruct (es_for _ _) as [[[] el] ret]; simpl; intros [= <- <-] || discriminate.
    reflexivity.
Qed.

Lemma nexts_run (n : nat) (st : es_state) :
  snd (nexts es_next n st) = es_run (repeat ANext n) st.
Proof.
  revert st. induction n as [|n IH]; intros st; [reflexivity|].
  simpl. destruct (es_next st) as [o st1] eqn:E.
  specialize (IH st1). destruct (nexts es_next n st1) as [os st2].
  simpl in *. exact IH.
Qed.

Lemma nexts_yield_pc (n : nat) (st st' : es_state) (outs : list (outcome string)) :
  nexts es_next (S n) st = (outs, st') -> all_yield outs ->
  es_pc_of st' = EsSuspended.
Proof.
  revert st outs. induction n as [|n IH]; intros st outs.
  - simpl. destruct (es_next st) as [o st1] eqn:E. intros [= <- <-] Hy.
    inversion Hy as [|? ? Ho _]; subst. destruct o; try discriminate.
    apply es_next_yield_pc in E. exact E.
  - change (nexts es_next (S (S n)) st)
      with (let (o, st1) := es_next st in
            let (os, st2) := nexts es_next (S n) st1 in (o :: os, st2)).
    destruct (es_next st) as [o st1].
    destruct (nexts es_next (S n) st1) as [os st2] eqn:E2.
    intros [= <- <-] Hy. inversion Hy; subst. eapply IH; eauto.
Qed.

Lemma close_suspended (t0 : list op) (st : es_state) :
  session t0 st -> es_pc_of st = EsSuspended -> released_once t0 (es_close st).
Proof.
  unfold session, es_close. intros H Hpc. rewrite Hpc in *.
  destruct H as (new & Ht & Hq). split; [reflexivity|].
  exists new. simpl. rewrite Ht. split; [reflexivity | exact Hq].
Qed.

(** The inner generator of [event_actions]. *)
Lemma session_ea_next (t0 : list op) (st : ea_state) :
  session t0 (ea_source st) -> session t0 (ea_source (snd (ea_next st))).
Proof.
  intros H. unfold ea_next.
  pose proof (session_next t0 _ H) as Hn.
  destruct (es_next (ea_source st)) as [o es] eqn:E. simpl in Hn.
  destruct (ea_pc_of st); [| |exact H];
    (destruct o as [info| |e]; simpl; [|exact Hn..]);
    (destruct (parse_payload info !! "Code"); simpl;
       [exact Hn | apply session_close, Hn]).
Qed.

Lemma ea_next_yield_pc (st st' : ea_state) x :
  ea_next st = (Yield x, st') ->
  ea_pc_of st' = EaSuspended /\ es_pc_of (ea_source st') = EsSuspended.
Proof.
  unfold ea_next.
  destruct (es_next (ea_source st)) as [o es] eqn:E.
  destruct (ea_pc_of st); try discriminate;
    (destruct o as [info| |e]; try discriminate);
    (destruct (parse_payload info !! "Code"); try discriminate);
    intros [= <- <-]; simpl; split; try reflexivity;
    apply (es_next_yield_pc _ _ _ E).
Qed.

Lemma ea_nexts_yield (t0 : list op) (n : nat) (st st' : ea_state) outs :
  session t0 (ea_source st) ->
  nexts ea_next (S n) st = (outs, st') -> all_yield outs ->
  session t0 (ea_source st')
  /\ ea_pc_of st' = EaSuspended /\ es_pc_of (ea_source st') = EsSuspended.
Proof.
  revert st outs. induction n as [|n IH]; intros st outs Hs.
  - simpl. pose proof (session_ea_next t0 st Hs) as Hs1.
    destruct (ea_next st) as [o st1] eqn:E. intros [= <- <-] Hy.
    inversion Hy as [|? ? Ho _]; subst. destruct o; try discriminate.
    split; [exact Hs1 | apply (ea_next_yield_pc _ _ _ E)].
  - change (nexts ea_next (S (S n)) st)
      with (let (o, st1) := ea_next st in
            let (os, st2) := nexts ea_next (S n) st1 in (o :: os, st2)).
    pose proof (session_ea_next t0 st Hs) as Hs1.
    destruct (ea_next st) as [o st1].
    destruct (nexts ea_next (S n) st1) as [os st2] eqn:E2.
    intros [= <- <-] Hy. inversion Hy; subst. eapply IH; eauto.
Qed.

(** * Further properties *)

(** ** The polled interface *)

Lemma py_in_str_ints (s : string) (l : list Z) :
  py_in (VStr s) (map VInt l) = false.
Proof. induction l as [|n l IH]; [reflexivity | exact IH]. Qed.

(** X1.  [is_motion_detected] and [is_alarm_triggered] never report a
    channel: the list of ints that [event_channels_happened] returns never
    holds the string the test looks for, so the result is the empty list
    whenever that call returns, and its exception otherwise. *)
Theorem detection_never_reports (content : Type)
    (command : string -> poll_exn + content)
    (decode : content -> poll_exn + string)
    (pretty : string -> poll_exn + string) :
  is_motion_detected content command decode pretty
  = match event_channels_happened content command decode pretty "VideoMotion" with
    | inl e => inl e
    | inr _ => inr []
    end
  /\ is_alarm_triggered content command decode pretty
     = match event_channels_happened content command decode pretty "AlarmLocal" with
       | inl e => inl e
       | inr _ => inr []
       end.
Proof.
  unfold is_motion_detected, is_alarm_triggered, and_then, channels_of_event.
  split.
  - destruct (event_channels_happened _ _ _ _ "VideoMotion") as [e|event];
      [reflexivity|]. rewrite py_in_str_ints. reflexivity.
  - destruct (event_channels_happened _ _ _ _ "AlarmLocal") as [e|event];
      [reflexivity|]. rewrite py_in_str_ints. reflexivity.
Qed.

(** *** Substrings and words *)

Lemma prefix_refl_app (p t : string) : String.prefix p (p ++ t) = true.
Proof.
  induction p as [|a p IH]; [destruct t; reflexivity|].
  simpl. destruct (ascii_dec a a); [exact IH | congruence].
Qed.

Lemma contains_of_prefix (sub s : string) :
  String.prefix sub s = true -> PyStr.contains sub s = true.
Proof. intros H. destruct s; cbn [PyStr.contains]; rewrite H; reflexivity. Qed.

Lemma contains_app (sub a b : string) :
  PyStr.contains sub (a ++ sub ++ b) = true.
Proof.
  induction a as [|c a IH].
  - change (PyStr.contains sub (sub ++ b) = true).
    apply contains_of_prefix, prefix_refl_app.
  - change (String c a ++ sub ++ b)%string with (String c (a ++ sub ++ b)).
    cbn [PyStr.contains]. rewrite IH. apply orb_true_r.
Qed.

Lemma contains_split (sub s : string) :
  PyStr.contains sub s = true -> exists a b, s = (a ++ sub ++ b)%string.
Proof.
  induction s as [|c s IH]; cbn [PyStr.contains]; intros H.
  - rewrite orb_false_r in H. apply prefix_app in H as [t Ht].
    exists EmptyString, t. exact Ht.
  - apply orb_true_iff in H as [H|H].
    + apply prefix_app in H as [t Ht]. exists EmptyString, t. exact Ht.
    + destruct (IH H) as (a & b & ->). exists (String c a), b. reflexivity.
Qed.

Lemma words_blank (s : string) :
  all_chars Py.isspace s = true -> PyStr.words s = [].
Proof.
  unfold all_chars. induction s as [|c s IH]; [reflexivity|].
  simpl. intros H. apply andb_true_iff in H as [Hc Hs].
  rewrite Hc. exact (IH Hs).
Qed.

(** X2.  A reply of the camera that holds the word Error anywhere gives the
    empty list, whatever else it holds, and so does an empty reply or one
    of white space only: in neither case is [pretty] or [int] applied to
    anything. *)
Theorem error_or_blank_reply_is_empty (content : Type)
    (command : string -> poll_exn + content)
    (decode : content -> poll_exn + string)
    (pretty : string -> poll_exn + string)
    (eventcode : string) (ret : content) (output : string) :
  command (indexes_path eventcode) = inr ret ->
  decode ret = inr output ->
  (exists a b, output = (a ++ "Error" ++ b)%string)
  \/ all_chars Py.isspace output = true ->
  event_channels_happened content command decode pretty eventcode = inr [].
Proof.
  intros Hc Hd H. unfold event_channels_happened, and_then.
  rewrite Hc, Hd. destruct H as [(a & b & ->)|H].
  - rewrite contains_app. reflexivity.
  - destruct (PyStr.contains "Error" output); [reflexivity|].
    rewrite (words_blank _ H). reflexivity.
Qed.

Lemma error_or_blank_reply_is_empty_witness :
  event_channels_happened string (fun _ => inr error_reply) inr no_pretty
    "VideoMotion" = inr []
  /\ event_channels_happened string (fun _ => inr blank_reply) inr no_pretty
       "VideoMotion" = inr [].
Proof.
  split.
  - apply (error_or_blank_reply_is_empty string _ inr _ "VideoMotion"
             error_reply error_reply eq_refl eq_refl).
    left. exists "x=1 ", ": bad y". reflexivity.
  - apply (error_or_blank_reply_is_empty string _ inr _ "VideoMotion"
             blank_reply blank_reply eq_refl eq_refl).
    right. reflexivity.
Defined.

(** *** List comprehensions *)

Lemma comprehension_inr {A B : Type} (f : A -> poll_exn + B) (l : list A)
    (ys : list B) :
  comprehension f l = inr ys <-> Forall2 (fun x y => f x = inr y) l ys.
Proof.
  revert ys. induction l as [|x l IH]; intros ys; simpl.
  - split.
    + intros [= <-]. constructor.
    + intros H. inversion H. reflexivity.
  - unfold and_then. destruct (f x) as [e|y] eqn:Ex.
    + split; [discriminate|]. intros H. inversion H; subst. congruence.
    + destruct (comprehension f l) as [e|ys'] eqn:El.
      * split; [discriminate|]. intros H. inversion H as [|? y0 ? ys0 Hy Hl]; subst.
        apply IH in Hl. discriminate.
      * split.
        -- intros [= <-]. constructor; [exact Ex | apply IH; reflexivity].
        -- intros H. inversion H as [|? y0 ? ys0 Hy Hl]; subst.
           apply IH in Hl. congruence.
Qed.

Lemma comprehension_inl {A B : Type} (f : A -> poll_exn + B) (l : list A)
    (e : poll_exn) :
  comprehension f l = inl e
  <-> exists l1 x l2,
        l = l1 ++ x :: l2
        /\ Forall (fun x => exists y, f x = inr y) l1 /\ f x = inl e.
Proof.
  induction l as [|x l IH]; simpl.
  - split; [discriminate|]. intros (l1 & x & l2 & H & _). destruct l1; discriminate.
  - unfold and_then. destruct (f x) as [e'|y] eqn:Ex.
    + split.
      * intros [= ->]. exists [], x, l. repeat split; [constructor | exact Ex].
      * intros (l1 & x' & l2 & H & Hl1 & Hx). destruct l1 as [|a l1].
        -- injection H as -> ->. congruence.
        -- injection H as -> ->. inversion Hl1 as [|? ? [y Hy] _]; subst. congruence.
    + destruct (comprehension f l) as [e'|ys] eqn:El.
      * split.
        -- intros [= ->]. destruct (proj1 IH eq_refl) as (l1 & x' & l2 & -> & Hl1 & Hx).
           exists (x :: l1), x', l2. repeat split; [|exact Hx].
           constructor; [exists y; exact Ex | exact Hl1].
        -- intros (l1 & x' & l2 & H & Hl1 & Hx). destruct l1 as [|a l1].
           ++ injection H as -> ->. congruence.
           ++ injection H as -> ->. inversion Hl1; subst.
              f_equal. symmetry.
              assert (E : inl e' = inl e :> poll_exn + list B)
                by (apply IH; exists l1, x', l2; auto).
              congruence.
      * split; [discriminate|].
        intros (l1 & x' & l2 & H & Hl1 & Hx). destruct l1 as [|a l1].
        -- injection H as -> ->. congruence.
        -- injection H as -> ->. inversion Hl1; subst.
           assert (E : inr ys = inl e :> poll_exn + list B)
             by (apply IH; exists l1, x', l2; auto).
           discriminate.
Qed.

(** X3.  For a reply without the word Error, [event_channels_happened]
    returns numbers exactly when every token of the reply (the reply split
    at white space) goes through [pretty] and [int]; the result then has
    one number per token, in order.  It raises exactly when some token
    fails, with the exception of the first token that fails: nothing
    partial is returned. *)
Theorem channels_all_or_nothing (content : Type)
    (command : string -> poll_exn + content)
    (decode : content -> poll_exn + string)
    (pretty : string -> poll_exn + string)
    (eventcode : string) (ret : content) (output : string) :
  command (indexes_path eventcode) = inr ret ->
  decode ret = inr output ->
  PyStr.contains "Error" output = false ->
  (forall ns,
      event_channels_happened content command decode pretty eventcode = inr ns
      <-> Forall2 (fun token n => channel_number pretty token = inr n)
            (PyStr.words output) ns)
  /\ (forall e,
         event_channels_happened content command decode pretty eventcode = inl e
         <-> exists done token rest,
               PyStr.words output = done ++ token :: rest
               /\ Forall (fun t => exists n, channel_number pretty t = inr n) done
               /\ channel_number pretty token = inl e).
Proof.
  intros Hc Hd He. unfold event_channels_happened, and_then.
  rewrite Hc, Hd, He. split.
  - intros ns. apply comprehension_inr.
  - intros e. apply comprehension_inl.
Qed.

Lemma channels_all_or_nothing_witness :
  event_channels_happened string (fun _ => inr channels_reply) inr pretty_field
    "VideoMotion" = inr [0; 2]%Z
  /\ event_channels_happened string (fun _ => inr bad_channels_reply) inr
       pretty_field "VideoMotion" = inl (Exn IndexError).
Proof.
  split.
  - destruct (channels_all_or_nothing string (fun _ => inr channels_reply) inr
                pretty_field "VideoMotion" channels_reply channels_reply
                eq_refl eq_refl eq_refl) as [H _].
    apply H. repeat constructor.
  - destruct (channels_all_or_nothing string (fun _ => inr bad_channels_reply)
                inr pretty_field "VideoMotion" bad_channels_reply
                bad_channels_reply eq_refl eq_refl eq_refl) as [_ H].
    apply H. exists ["channels[0]=0"], "channels[1]", ["channels[2]=x"].
    split; [reflexivity|]. split; [|reflexivity].
    constructor; [exists 0%Z; reflexivity | constructor].
Defined.

(** ** The logging filter *)

Lemma install_filter_has (filters : list log_filter) :
  existsb is_no_header (install_filter filters) = true.
Proof.
  unfold install_filter. destruct (existsb is_no_header filters) eqn:E;
    [exact E|].
  rewrite existsb_app. simpl. apply orb_true_r.
Qed.

Lemma logger_accepts_has (filters : list log_filter) (message : string) :
  existsb is_no_header filters = true ->
  logger_accepts filters message
  = logger_accepts filters message && NoHeaderErrorFilter_filter message.
Proof.
  unfold logger_accepts. induction filters as [|x fs IH]; [discriminate|].
  simpl. destruct x as [|f]; simpl.
  - intros _. destruct (NoHeaderErrorFilter_filter message);
      [rewrite andb_true_r | rewrite !andb_false_r]; reflexivity.
  - intros H. rewrite (IH H) at 1. apply andb_assoc.
Qed.

(** X4.  Installing the filter is idempotent: however often [event_stream]
    runs, a logger that had no [NoHeaderErrorFilter] gets exactly one, at
    the end, and the filters it had stay as they were, in their order.
    With the filter installed the logger lets a record through exactly when
    it did before and the message does not hold the phrase Failed to parse
    headers; the filter rejects the messages that hold the phrase anywhere
    and only those. *)
Theorem header_errors_filtered (filters : list log_filter) (message : string) :
  install_filter (install_filter filters) = install_filter filters
  /\ (existsb is_no_header filters = false ->
      install_filter filters = filters ++ [NoHeaderErrorFilter])
  /\ (existsb is_no_header filters = true -> install_filter filters = filters)
  /\ logger_accepts (install_filter filters) message
     = logger_accepts filters message && NoHeaderErrorFilter_filter message
  /\ (NoHeaderErrorFilter_filter message = false
      <-> exists a b, message = (a ++ "Failed to parse headers" ++ b)%string).
Proof.
  split; [|split; [|split; [|split]]].
  - unfold install_filter at 1. rewrite install_filter_has. reflexivity.
  - intros H. unfold install_filter. rewrite H. reflexivity.
  - intros H. unfold install_filter. rewrite H. reflexivity.
  - unfold install_filter. destruct (existsb is_no_header filters) eqn:E.
    + apply logger_accepts_has, E.
    + unfold logger_accepts. rewrite forallb_app. simpl.
      rewrite andb_true_r. reflexivity.
  - unfold NoHeaderErrorFilter_filter. rewrite negb_false_iff. split.
    + apply contains_split.
    + intros (a & b & ->). apply contains_app.
Qed.

Lemma header_errors_filtered_witness :
  install_filter [OtherFilter (fun _ => true)]
  = [OtherFilter (fun _ => true); NoHeaderErrorFilter]
  /\ install_filter (install_filter [OtherFilter (fun _ => true)])
     = [OtherFilter (fun _ => true); NoHeaderErrorFilter].
Proof.
  destruct (header_errors_filtered [OtherFilter (fun _ => true)] EmptyString)
    as (H1 & H2 & _).
  rewrite H1. split; exact (H2 eq_refl).
Defined.

(** ** The values of a payload *)

(** X5.  In every decoded payload the entry under data, and only that one,
    is a nested mapping, the one parsed from some value of the text; every
    other entry is a string of the text. *)
Theorem payload_value_kinds (event_info k : string) (v : pvalue) :
  parse_payload event_info !! k = Some v ->
  exists Value,
    In (k, Value) (payload_pairs event_info)
    /\ (k = "data" -> v = PDict (parse_data Value))
    /\ (k <> "data" -> v = PStr Value).
Proof.
  rewrite parse_payload_put. intros H.
  apply foldl_put_origin in H as [H | ([k' Value] & Hin & -> & ->)];
    [rewrite lookup_empty in H; discriminate|].
  exists Value. simpl. split; [exact Hin|].
  unfold payload_value. split.
  - intros ->. reflexivity.
  - intros Hk. apply String.eqb_neq in Hk. rewrite Hk. reflexivity.
Qed.

Lemma payload_value_kinds_witness :
  exists Value : string,
    In ("Code", Value) (payload_pairs motion_text)
    /\ PStr "VideoMotion" = PStr Value.
Proof.
  assert (H : parse_payload motion_text !! "Code" = Some (PStr "VideoMotion"))
    by (vm_compute; reflexivity).
  destruct (payload_value_kinds motion_text "Code" (PStr "VideoMotion") H)
    as (Value & Hin & _ & Hs).
  exists Value. split; [exact Hin | apply Hs; discriminate].
Defined.

(** X6.  Every record [event_actions] yields is made of one payload text
    delivered by [event_stream]: its second part is the decoded payload,
    its first part is a string, and that string is the payload's entry
    under Code. *)
Theorem record_code_is_string (st st' : ea_state)
    (record : pvalue * gmap string pvalue) :
  ea_next st = (Yield record, st') ->
  exists event_info code,
    fst (es_next (ea_source st)) = Yield event_info
    /\ record = (PStr code, parse_payload event_info)
    /\ parse_payload event_info !! "Code" = Some (PStr code).
Proof.
  unfold ea_next.
  destruct (es_next (ea_source st)) as [o es] eqn:E.
  destruct (ea_pc_of st); try discriminate;
    (destruct o as [info| |e]; try discriminate);
    (destruct (parse_payload info !! "Code") as [code|] eqn:Hc; try discriminate);
    intros [= <- <-];
    destruct (payload_value_kinds info "Code" code Hc) as (Value & _ & _ & Hs);
    rewrite (Hs ltac:(discriminate)) in *;
    exists info, Value; repeat split; exact Hc.
Qed.

Lemma record_code_is_string_witness :
  exists event_info code,
    fst (es_next (ea_source (event_actions motion_response))) = Yield event_info
    /\ fst (ea_next (event_actions motion_response))
       = Yield (PStr code, parse_payload event_info).
Proof.
  assert (H : ea_next (event_actions motion_response)
              = (Yield (PStr "VideoMotion", motion_payload),
                 snd (ea_next (event_actions motion_response))))
    by (vm_compute; reflexivity).
  destruct (record_code_is_string _ _ _ H) as (info & code & H1 & H2 & _).
  exists info, code. split; [exact H1|]. rewrite H. simpl. f_equal. exact H2.
Defined.

(** ** Items and headers on any body *)

Lemma read_sized_headers (n : Z) (ret ret' : Response) (o : outcome string) :
  read_sized n ret = (o, ret') ->
  headers_seen (trace ret') = headers_seen (trace ret).
Proof.
  unfold read_sized. destruct (n =? 0)%Z; [intros [= <- <-]; reflexivity|].
  destruct ((0 <? n)%Z && (Z.to_nat n <=? length (raw ret))%nat);
    [intros [= <- <-]; reflexivity|].
  destruct (fault ret), (raw ret); intros [= <- <-]; reflexivity.
Qed.

Lemma es_chunk_headers (l : string) (el el' : el_state) (ret ret' : Response)
    (o : outcome string) (before : nat) :
  es_chunk l el ret = (o, el', ret') ->
  is_header l = true ->
  headers_seen (trace ret) = (if valid_header l then 1 else 0) + before ->
  header_step o before (headers_seen (trace ret')).
Proof.
  unfold es_chunk, valid_header. intros H Hh Ht. rewrite Hh in Ht.
  destruct (chunk_size l) as [e|n].
  - injection H as <- <- <-. simpl in *. lia.
  - destruct (read_sized n ret) as [o1 ret1] eqn:E.
    apply read_sized_headers in E. simpl in Ht.
    destruct o1; injection H as <- <- <-; simpl; lia.
Qed.

Lemma es_loop_headers f enc (line body : list ascii) (tr : list op)
    (o : outcome string) (el : el_state) (ret : Response) :
  es_loop f enc line body tr = (o, el, ret) ->
  header_step o (headers_seen tr) (headers_seen (trace ret)).
Proof.
  revert line tr. induction body as [|c rest IH]; intros line tr.
  - simpl. destruct f; intros [= <- <- <-]; simpl; lia.
  - simpl. destruct (el_step line c) as [line' [l|]].
    + destruct (is_header l) eqn:Hh.
      * intros H. apply (es_chunk_headers _ _ _ _ _ _ (headers_seen tr)) in H;
          [exact H | exact Hh | reflexivity].
      * intros H. apply IH in H. cbn [headers_seen] in H.
        unfold valid_header in H. rewrite Hh in H. exact H.
    + intros H. apply IH in H. exact H.
Qed.

Lemma es_next_headers (st st' : es_state) (o : outcome string) :
  es_next st = (o, st') ->
  header_step o (headers_seen (trace (es_ret st)))
    (headers_seen (trace (es_ret st')))
  /\ (is_yield o = false -> es_pc_of st' = EsDone).
Proof.
  unfold es_next, es_for. destruct (es_pc_of st) eqn:Hpc.
  - destruct (el_pc_of (es_lines st)).
    1,2: destruct (es_loop _ _ _ _ _) as [[o1 el1] ret1] eqn:E;
      apply es_loop_headers in E; simpl in E;
      destruct o1; intros [= <- <-]; simpl in *;
      (split; [exact E | intros; first [discriminate | reflexivity]]).
    intros [= <- <-]. simpl. split; reflexivity.
  - destruct (el_pc_of (es_lines st)).
    1,2: destruct (es_loop _ _ _ _ _) as [[o1 el1] ret1] eqn:E;
      apply es_loop_headers in E; simpl in E;
      destruct o1; intros [= <- <-]; simpl in *;
      (split; [exact E | intros; first [discriminate | reflexivity]]).
    intros [= <- <-]. simpl. split; reflexivity.
  - intros [= <- <-]. simpl. split; [reflexivity | intros _; exact Hpc].
Qed.

Lemma count_yields_ended {A : Type} (n : nat) :
  count_yields (repeat (@StopIteration A) n) = 0%nat.
Proof. induction n as [|n IH]; [reflexivity | exact IH]. Qed.

(** X7.  On any body, well-formed or not, and for any number of [next]
    calls, the items [event_stream] has yielded and the valid header lines
    the frame reader has handed over differ by at most one: every item took
    one header, and at most one header ended the stream instead (a read
    that failed or found nothing).  When nothing was raised the two numbers
    agree; a body without a valid header yields nothing. *)
Theorem items_follow_headers (ret : Response) (n : nat) :
  let run := nexts es_next n (event_stream ret) in
  exists d : nat,
    headers_seen (trace (es_ret run.2))
    = (headers_seen (trace ret) + count_yields run.1 + d)%nat
    /\ (d <= 1)%nat
    /\ (clean_run run.1 -> d = 0%nat).
Proof.
  change (trace ret) with (trace (es_ret (event_stream ret))).
  generalize (event_stream ret). clear ret.
  induction n as [|n IH]; intros st run.
  - exists 0%nat. subst run. unfold count_yields. simpl.
    split; [lia|]. split; [lia | reflexivity].
  - subst run. simpl.
    destruct (es_next st) as [o st1] eqn:E.
    destruct (es_next_headers _ _ _ E) as [Hstep Hend].
    destruct o as [x| |e].
    + destruct (IH st1) as (d & Hd & Hle & Hclean).
      destruct (nexts es_next n st1) as [os st2]. simpl in *.
      exists d. unfold count_yields in *. simpl.
      split; [lia|]. split; [exact Hle|].
      intros Hc. apply Hclean. inversion Hc; assumption.
    + rewrite (es_nexts_done st1 n (Hend eq_refl)). simpl.
      exists 0%nat. unfold count_yields in *. simpl.
      fold (@count_yields string (repeat StopIteration n)).
      rewrite count_yields_ended. simpl in Hstep.
      split; [lia|]. split; [lia | reflexivity].
    + rewrite (es_nexts_done st1 n (Hend eq_refl)). simpl.
      exists (headers_seen (trace (es_ret st1)) - headers_seen (trace (es_ret st)))%nat.
      unfold count_yields in *. simpl.
      fold (@count_yields string (repeat StopIteration n)).
      rewrite count_yields_ended. simpl in Hstep.
      split; [lia|]. split; [lia|].
      intros Hc. inversion Hc as [|? ? Ho _]. destruct Ho.
Qed.

Lemma items_follow_headers_witness :
  let run := nexts es_next 4 (event_stream cut_response) in
  run.1 = [Yield "abc"; Raise RuntimeError; StopIteration; StopIteration]
  /\ (headers_seen (trace (es_ret run.2)) <= count_yields run.1 + 1)%nat
  /\ headers_seen (trace (es_ret run.2)) = 2%nat.
Proof.
  intros run.
  destruct (items_follow_headers cut_response 4) as (d & H & Hle & _).
  fold run in H. split; [vm_compute; reflexivity|].
  split; [rewrite H; simpl; lia | vm_compute; reflexivity].
Defined.

(** ** Exceptions outside the except clause *)

(** X8.  When the transport raises, during a [next] on [event_stream], an
    exception that is neither a RequestException nor an HTTPError, the
    caller gets that very exception, not a CommError; the [with] block has
    released the response all the same, once and as the last operation,
    and every later [next] gives StopIteration. *)
Theorem other_error_unwrapped (t0 : list op) (st st' : es_state)
    (o : outcome string) (e : exn) (new : list op) :
  session t0 st ->
  es_next st = (o, st') ->
  trace (es_ret st') = new ++ trace (es_ret st) ->
  In (OpRaise e) new ->
  is_transport e = false ->
  o = Raise e
  /\ released_once t0 st'
  /\ forall n, nexts es_next n st' = (repeat StopIteration n, st').
Proof.
  intros Hs Hn Ht Hin He.
  destruct (es_next_raise st st' o e new Hn Ht Hin) as [Ho Hpc'].
  unfold handler in Ho. rewrite He in Ho. subst o.
  split; [reflexivity|]. split; [|intros n; apply es_nexts_done, Hpc'].
  assert (Hpc : es_pc_of st <> EsDone).
  { intros Hpc. unfold es_next in Hn. rewrite Hpc in Hn. discriminate Hn. }
  pose proof (released_next t0 st Hs Hpc) as Hr.
  rewrite Hn in Hr. exact (Hr Hpc').
Qed.

Lemma other_error_unwrapped_witness :
  let st := snd (es_next (event_stream os_error_response)) in
  is_transport os_error = false
  /\ fst (nexts es_next 2 st) = [Raise os_error; StopIteration]
  /\ released_once [] (snd (es_next st)).
Proof.
  intros st.
  assert (Hs : session [] st).
  { unfold st. change (snd (es_next (event_stream os_error_response)))
      with (es_run [ANext] (event_stream os_error_response)).
    apply session_run. reflexivity. }
  assert (Hn : es_next st = (fst (es_next st), snd (es_next st)))
    by (vm_compute; reflexivity).
  assert (Ht : trace (es_ret (snd (es_next st)))
               = [OpClose; OpRaise os_error; OpRead; OpRead; OpRead; OpRead;
                  OpRead] ++ trace (es_ret st))
    by (vm_compute; reflexivity).
  destruct (other_error_unwrapped [] st _ _ os_error _ Hs Hn Ht
              ltac:(simpl; tauto) eq_refl) as (H1 & H2 & H3).
  split; [reflexivity|]. split; [|exact H2].
  change (nexts es_next 2 st)
    with (let (o, st') := es_next st in
          let (os, st'') := nexts es_next 1 st' in (o :: os, st'')).
  rewrite Hn, H1, (H3 1%nat). reflexivity.
Defined.

(** ** [event_actions] on every path *)

Lemma es_next_pc (st st' : es_state) (o : outcome string) :
  es_next st = (o, st') ->
  match es_pc_of st with
  | EsDone => st' = st
  | EsStart | EsSuspended =>
      match o with
      | Yield _ => es_pc_of st' = EsSuspended
      | StopIteration | Raise _ => es_pc_of st' = EsDone
      end
  end.
Proof.
  unfold es_next. destruct (es_pc_of st).
  - destruct (es_for _ _) as [[[] el] ret]; intros [= <- <-]; reflexivity.
  - destruct (es_for _ _) as [[[] el] ret]; intros [= <- <-]; reflexivity.
  - intros [= <- <-]. reflexivity.
Qed.

Lemma ea_session_next (t0 : list op) (st : ea_state) :
  ea_session t0 st -> ea_session t0 (snd (ea_next st)).
Proof.
  intros [Hs Hpc]. split; [apply session_ea_next, Hs|].
  unfold ea_next. destruct (es_next (ea_source st)) as [o es] eqn:E.
  pose proof (es_next_pc _ _ _ E) as Hn.
  destruct (ea_pc_of st) eqn:Hea.
  - rewrite Hpc in Hn.
    destruct o as [info| |e]; simpl.
    + destruct (parse_payload info !! "Code"); simpl.
      * exact Hn.
      * unfold es_close. rewrite Hn. simpl. discriminate.
    + rewrite Hn. discriminate.
    + rewrite Hn. discriminate.
  - rewrite Hpc in Hn.
    destruct o as [info| |e]; simpl.
    + destruct (parse_payload info !! "Code"); simpl.
      * exact Hn.
      * unfold es_close. rewrite Hn. simpl. discriminate.
    + rewrite Hn. discriminate.
    + rewrite Hn. discriminate.
  - simpl. rewrite Hea. exact Hpc.
Qed.

Lemma ea_session_close (t0 : list op) (st : ea_state) :
  ea_session t0 st -> ea_session t0 (ea_close st).
Proof.
  intros [Hs Hpc]. unfold ea_close. destruct (ea_pc_of st) eqn:Hea.
  - split; [exact Hs|]. simpl. rewrite Hpc. discriminate.
  - split; [apply session_close, Hs|]. simpl.
    unfold es_close. rewrite Hpc. simpl. discriminate.
  - split; [exact Hs|]. simpl. exact Hpc.
Qed.

Lemma ea_session_run (t0 : list op) (acts : list action) (st : ea_state) :
  ea_session t0 st -> ea_session t0 (ea_run acts st).
Proof.
  revert st. induction acts as [|a acts IH]; intros st H; [exact H|].
  simpl. apply IH.
  destruct a; [apply ea_session_next | apply ea_session_close]; exact H.
Qed.

Lemma ea_run_done (acts : list action) (st : ea_state) :
  ea_pc_of st = EaDone -> ea_run acts st = st.
Proof.
  intros H. induction acts as [|a acts IH]; [reflexivity|].
  simpl. destruct a; simpl.
  - unfold ea_next. rewrite H. exact IH.
  - unfold ea_close. rewrite H. destruct st as [pc src]. simpl in H. subst pc.
    exact IH.
Qed.

(** A [next] on [event_actions] that finishes it, by the end of the
    stream, by an exception of the stream or by the KeyError of a payload
    without Code, leaves the response released. *)
Lemma ea_released_next (t0 : list op) (st : ea_state) :
  ea_session t0 st -> ea_pc_of st <> EaDone ->
  ea_pc_of (snd (ea_next st)) = EaDone ->
  released_once t0 (ea_source (snd (ea_next st))).
Proof.
  intros [Hs Hpc] Hlive.
  assert (Hsrc : es_pc_of (ea_source st) <> EsDone).
  { destruct (ea_pc_of st); [rewrite Hpc; discriminate
                            | rewrite Hpc; discriminate | congruence]. }
  pose proof (released_next t0 _ Hs Hsrc) as Hr.
  pose proof (session_next t0 _ Hs) as Hs'.
  unfold ea_next.
  destruct (es_next (ea_source st)) as [o es] eqn:E.
  pose proof (es_next_pc _ _ _ E) as Hn. cbn [snd] in Hr, Hs'.
  assert (Hend : match o with
                 | Yield _ => es_pc_of es = EsSuspended
                 | _ => es_pc_of es = EsDone
                 end).
  { destruct (es_pc_of (ea_source st)); [| |congruence];
      destruct o; exact Hn. }
  destruct (ea_pc_of st); [| |congruence];
    (destruct o as [info| |e]; cbn [snd ea_pc_of ea_source];
     [destruct (parse_payload info !! "Code");
        cbn [snd ea_pc_of ea_source];
        [discriminate | intros _; apply close_suspended; assumption]
     | intros _; apply Hr, Hend
     | intros _; apply Hr, Hend]).
Qed.

(** ** C8: released once, on every path *)

(** C8.  A consumer that gives [event_stream] up after one or more records
    releases the response exactly once: the trace of the session is one
    request, reads, and one release, the release last; whatever is done
    with the generator afterwards changes nothing, so no read follows the
    release and there is no second release.  The same holds for
    [event_actions], whose [close] closes the inner generator.  On every
    path (any sequence of [next] and [close]) and for both generators, a
    finished generator has either never made the request or released the
    response once, as the last operation on it, and a suspended one holds
    it unreleased; a [next] that finishes the generator (by the normal
    end, by an error of the transport or of the framing, or for
    [event_actions] by the KeyError of a payload without Code) releases the
    response once; and nothing done with a finished generator touches the
    response again. *)
Theorem connection_released_once (ret : Response) :
  (forall n outs st,
      nexts es_next (S n) (event_stream ret) = (outs, st) -> all_yield outs ->
      released_once (trace ret) (es_close st)
      /\ forall acts, es_run acts (es_close st) = es_close st)
  /\ (forall n outs st,
         nexts ea_next (S n) (event_actions ret) = (outs, st) ->
         all_yield outs ->
         released_once (trace ret) (ea_source (ea_close st))
         /\ forall m,
              nexts ea_next m (ea_close st)
              = (repeat StopIteration m, ea_close st))
  /\ (forall acts,
        let st := es_run acts (event_stream ret) in
        session (trace ret) st
        /\ (es_pc_of st <> EsDone ->
            es_pc_of (snd (es_next st)) = EsDone ->
            released_once (trace ret) (snd (es_next st)))
        /\ (es_pc_of st = EsDone -> forall more, es_run more st = st))
  /\ (forall acts,
        let st := ea_run acts (event_actions ret) in
        ea_session (trace ret) st
        /\ (ea_pc_of st <> EaDone ->
            ea_pc_of (snd (ea_next st)) = EaDone ->
            released_once (trace ret) (ea_source (snd (ea_next st))))
        /\ (ea_pc_of st = EaDone ->
            (trace (es_ret (ea_source st)) = trace ret
             \/ released_once (trace ret) (ea_source st))
            /\ forall more, ea_run more st = st)).
Proof.
  assert (H0 : session (trace ret) (event_stream ret)) by reflexivity.
  assert (H0' : ea_session (trace ret) (event_actions ret))
    by (split; reflexivity).
  split; [|split; [|split]].
  - intros n outs st Hn Hy.
    assert (Hs : session (trace ret) st).
    { replace st with (snd (nexts es_next (S n) (event_stream ret)))
        by (rewrite Hn; reflexivity).
      rewrite nexts_run. apply session_run, H0. }
    pose proof (nexts_yield_pc _ _ _ _ Hn Hy) as Hpc.
    pose proof (close_suspended _ _ Hs Hpc) as Hr.
    split; [exact Hr|]. intros acts. apply es_run_done, Hr.
  - intros n outs st Hn Hy.
    destruct (ea_nexts_yield (trace ret) n (event_actions ret) st outs H0 Hn Hy)
      as (Hs & Hpc & Hpc').
    unfold ea_close. rewrite Hpc. cbn [ea_source]. split.
    + apply close_suspended; assumption.
    + intros m. apply ea_nexts_done. reflexivity.
  - intros acts st.
    assert (Hs : session (trace ret) st) by apply session_run, H0.
    split; [exact Hs|]. split.
    + apply released_next, Hs.
    + intros Hd more. apply es_run_done, Hd.
  - intros acts st.
    assert (Hs : ea_session (trace ret) st) by apply ea_session_run, H0'.
    split; [exact Hs|]. split.
    + apply ea_released_next, Hs.
    + intros Hd. split; [|intros more; apply ea_run_done, Hd].
      destruct Hs as [Hs Hpc]. rewrite Hd in Hpc.
      unfold session in Hs. unfold released_once.
      destruct (es_pc_of (ea_source st)) eqn:E.
      * left. exact Hs.
      * congruence.
      * destruct Hs as [Hs|Hs];
          [left; exact Hs | right; split; [reflexivity | exact Hs]].
Qed.

Lemma connection_released_once_witness :
  let ret := mkResponse (wire two_chunks_wire) None None [] in
  let st := snd (nexts es_next 1 (event_stream ret)) in
  let ea := snd (ea_next (event_actions no_code_response)) in
  fst (nexts es_next 1 (event_stream ret)) = [Yield start_text]
  /\ released_once [] (es_close st)
  /\ nexts es_next 2 (es_close st) = ([StopIteration; StopIteration], es_close st)
  /\ head (trace (es_ret (es_close st))) = Some OpClose
  /\ es_close (es_close st) = es_close st
  /\ fst (ea_next (event_actions no_code_response)) = Raise (KeyError "Code")
  /\ released_once [] (ea_source ea).
Proof.
  intros ret st ea.
  destruct (connection_released_once ret) as (H1 & _).
  assert (Hn : nexts es_next 1 (event_stream ret) = ([Yield start_text], st))
    by (vm_compute; reflexivity).
  destruct (H1 0%nat _ st Hn ltac:(repeat constructor)) as [Hr Hfix].
  split; [rewrite Hn; reflexivity|]. split; [exact Hr|].
  split; [exact (es_nexts_done _ 2 (proj1 Hr))|].
  split; [vm_compute; reflexivity|].
  split; [exact (Hfix [AClose])|].
  split; [vm_compute; reflexivity|].
  destruct (connection_released_once no_code_response) as (_ & _ & _ & H4).
  destruct (H4 []) as (_ & H5 & _).
  apply H5; [discriminate | vm_compute; reflexivity].
Defined.

(** X9.  Whatever a consumer does with [event_actions] (any sequence of
    [next] and [close]), once the generator is finished its inner
    [event_stream] is not left suspended on an open response: either the
    request was never made, or the response has been released once, as the
    last operation on it.  This includes the KeyError of a payload without
    Code and the close of an abandoned iteration.  Nothing done afterwards
    touches the response again. *)
Theorem actions_release_response (ret : Response) (acts : list action) :
  let st := ea_run acts (event_actions ret) in
  ea_pc_of st = EaDone ->
  (trace (es_ret (ea_source st)) = trace ret
   \/ released_once (trace ret) (ea_source st))
  /\ forall more, ea_run more st = st.
Proof.
  intros st Hdone.
  assert (H : ea_session (trace ret) st).
  { apply ea_session_run. split; reflexivity. }
  split; [|intros more; apply ea_run_done, Hdone].
  destruct H as [Hs Hpc]. rewrite Hdone in Hpc.
  unfold session in Hs. unfold released_once.
  destruct (es_pc_of (ea_source st)) eqn:E.
  - left. exact Hs.
  - congruence.
  - destruct Hs as [Hs|Hs]; [left; exact Hs | right; split; [reflexivity | exact Hs]].
Qed.

Lemma actions_release_response_witness :
  let st := ea_run [ANext] (event_actions no_code_response) in
  ea_pc_of st = EaDone
  /\ released_once [] (ea_source st)
  /\ ea_run [ANext; AClose; ANext] st = st.
Proof.
  intros st.
  assert (Hd : ea_pc_of st = EaDone) by (vm_compute; reflexivity).
  destruct (actions_release_response no_code_response [ANext] Hd) as [H1 H2].
  split; [exact Hd|]. split; [|apply H2].
  destruct H1 as [H|H]; [vm_compute in H; discriminate H | exact H].
Defined.

(** ** Strings and classes of characters *)

Lemma append_assoc (a b c : string) :
  ((a ++ b) ++ c)%string = (a ++ b ++ c)%string.
Proof.
  induction a as [|x a IH]; [reflexivity | exact (f_equal (String x) IH)].
Qed.

Lemma wire_app (a b : string) : wire (a ++ b) = wire a ++ wire b.
Proof.
  unfold wire. induction a as [|c a IH]; simpl; [reflexivity | rewrite IH; reflexivity].
Qed.

Lemma wire_nonempty (s : string) :
  Py.is_empty s = false -> exists a l, wire s = a :: l.
Proof.
  destruct s as [|a s]; [discriminate|]. intros _.
  exists a, (wire s). reflexivity.
Qed.

Lemma append_inv_tail (a b t : string) :
  (a ++ t)%string = (b ++ t)%string -> a = b.
Proof.
  intros H. apply (f_equal list_ascii_of_string) in H.
  fold (wire (a ++ t)) in H. fold (wire (b ++ t)) in H.
  rewrite !wire_app in H. apply app_inv_tail in H.
  rewrite <- (string_of_list_ascii_of_string a),
          <- (string_of_list_ascii_of_string b).
  f_equal. exact H.
Qed.

Lemma forallb_Forall {A : Type} (p : A -> bool) (l : list A) :
  forallb p l = true -> Forall (fun b => p b = true) l.
Proof.
  induction l as [|a l IH]; [constructor|].
  simpl. intros H. apply andb_true_iff in H as [Ha Hl].
  constructor; [exact Ha | exact (IH Hl)].
Qed.

Lemma all_chars_app (p : ascii -> bool) (a b : string) :
  all_chars p (a ++ b)%string = all_chars p a && all_chars p b.
Proof.
  unfold all_chars. induction a as [|c a IH]; [reflexivity|].
  simpl. rewrite IH, andb_assoc. reflexivity.
Qed.

Lemma all_chars_weaken (p q : ascii -> bool) (s : string) :
  (forall c, p c = true -> q c = true) ->
  all_chars p s = true -> all_chars q s = true.
Proof.
  unfold all_chars. intros Hpq. induction s as [|c s IH]; [reflexivity|].
  simpl. intros H. apply andb_true_iff in H as [Hc Hs].
  rewrite (Hpq c Hc), (IH Hs). reflexivity.
Qed.

Lemma lower_app (a b : string) :
  Py.lower (a ++ b) = (Py.lower a ++ Py.lower b)%string.
Proof. induction a as [|c a IH]; simpl; [reflexivity | rewrite IH; reflexivity]. Qed.

Lemma lower_all_chars (p : ascii -> bool) (s : string) :
  (forall c, p (Py.lower_char c) = p c) ->
  all_chars p (Py.lower s) = all_chars p s.
Proof.
  intros Hp. unfold all_chars. induction s as [|c s IH]; [reflexivity|].
  simpl. rewrite IH, Hp. reflexivity.
Qed.

Lemma lower_not_colon (c : ascii) :
  not_char ":" (Py.lower_char c) = not_char ":" c.
Proof. destruct c as [[] [] [] [] [] [] [] []]; reflexivity. Qed.

Lemma lower_not_cr (c : ascii) :
  not_char Py.CR (Py.lower_char c) = not_char Py.CR c.
Proof. destruct c as [[] [] [] [] [] [] [] []]; reflexivity. Qed.

Lemma digit_not_char (x : ascii) :
  is_digit x = false -> forall c, is_digit c = true -> not_char x c = true.
Proof.
  intros Hx c Hc. unfold not_char. destruct (Ascii.eqb_spec c x) as [->|_];
    [congruence | reflexivity].
Qed.

Lemma digit_not_space (c : ascii) : is_digit c = true -> not_space c = true.
Proof. destruct c as [[] [] [] [] [] [] [] []]; vm_compute; auto. Qed.

Lemma blanks_not_char (x : ascii) (k : nat) :
  not_char x " " = true -> all_chars (not_char x) (blanks k) = true.
Proof.
  intros Hx. unfold all_chars. induction k as [|k IH]; [reflexivity|].
  simpl. rewrite Hx. exact IH.
Qed.

Lemma split_no_sep (sep : ascii) (s : string) :
  all_chars (not_char sep) s = true -> Py.split sep s = [s].
Proof.
  unfold all_chars. induction s as [|c s IH]; [reflexivity|].
  simpl. intros H. apply andb_true_iff in H as [Hc Hs].
  rewrite (IH Hs). unfold not_char in Hc.
  destruct (Ascii.eqb c sep); [discriminate | reflexivity].
Qed.

Lemma split_app (sep : ascii) (a b : string) :
  all_chars (not_char sep) a = true ->
  Py.split sep (a ++ String sep b)%string = a :: Py.split sep b.
Proof.
  unfold all_chars. intros Ha. induction a as [|c a IH].
  - simpl. rewrite Ascii.eqb_refl. reflexivity.
  - simpl in Ha. apply andb_true_iff in Ha as [Hc Ha].
    simpl. rewrite (IH Ha). unfold not_char in Hc.
    destruct (Ascii.eqb c sep); [discriminate | reflexivity].
Qed.

Lemma replace_app (old : ascii) (new a b : string) :
  Py.replace old new (a ++ b)%string
  = (Py.replace old new a ++ Py.replace old new b)%string.
Proof.
  induction a as [|x a IH]; [reflexivity|].
  change (String x a ++ b)%string with (String x (a ++ b)%string).
  cbn [Py.replace]. rewrite IH. destruct (Ascii.eqb x old); [|reflexivity].
  rewrite append_assoc. reflexivity.
Qed.

Lemma replace_absent (old : ascii) (new s : string) :
  all_chars (not_char old) s = true -> Py.replace old new s = s.
Proof.
  unfold all_chars. induction s as [|x s IH]; [reflexivity|].
  simpl. intros H. apply andb_true_iff in H as [Hx Hs].
  apply negb_true_iff in Hx. rewrite Hx, (IH Hs). reflexivity.
Qed.

Lemma rstrip_not_space (d : string) :
  all_chars not_space d = true -> Py.rstrip d = d.
Proof.
  unfold all_chars. induction d as [|c d IH]; [reflexivity|].
  simpl. intros H. apply andb_true_iff in H as [Hc Hd].
  rewrite (IH Hd). unfold not_space in Hc.
  destruct (Py.isspace c); [discriminate | reflexivity].
Qed.

Lemma rstrip_app (a d : string) :
  all_chars not_space d = true -> Py.is_empty d = false ->
  Py.rstrip (a ++ d)%string = (a ++ d)%string.
Proof.
  intros Hd He. induction a as [|c a IH].
  - apply rstrip_not_space, Hd.
  - simpl. rewrite IH.
    replace (Py.is_empty (a ++ d)%string) with false
      by (destruct a; [symmetry; exact He | reflexivity]).
    rewrite andb_false_r. reflexivity.
Qed.

(** ** Headers written in decimal *)

(** [int] reads the decimal notation of a number back. *)
Lemma int_digits_decimal (d : Decimal.uint) (acc : nat) (prev : bool) :
  (d = Decimal.Nil -> prev = true) ->
  Py.int_digits (Z.of_nat acc) prev (NilEmpty.string_of_uint d)
  = Some (Z.of_nat (Nat.of_uint_acc d acc), EmptyString).
Proof.
  revert acc prev.
  induction d as [|d IH|d IH|d IH|d IH|d IH|d IH|d IH|d IH|d IH|d IH];
    intros acc prev Hp.
  1: { simpl. rewrite (Hp eq_refl). reflexivity. }
  all: cbn [NilEmpty.string_of_uint Py.int_digits Nat.of_uint_acc];
    match goal with
    | |- context [Py.digit_val ?c] =>
        let v := eval vm_compute in (Py.digit_val c) in
        change (Py.digit_val c) with v
    end;
    cbv iota; rewrite Nat.tail_mul_spec;
    match goal with
    | |- Py.int_digits ?z _ _ = Some (Z.of_nat (Nat.of_uint_acc _ ?a), _) =>
        replace z with (Z.of_nat a) by lia
    end;
    apply IH; reflexivity.
Qed.

Lemma to_uint_nonnil (n : nat) : Nat.to_uint n <> Decimal.Nil.
Proof.
  rewrite <- (DecimalNat.Unsigned.of_to n) at 1.
  rewrite DecimalNat.Unsigned.to_of. apply DecimalFacts.unorm_nonnil.
Qed.

Lemma decimal_digits (n : nat) : all_chars is_digit (decimal n) = true.
Proof.
  unfold decimal, all_chars. generalize (Nat.to_uint n) as d.
  intros d. induction d; simpl; auto.
Qed.

Lemma decimal_nonempty (n : nat) : Py.is_empty (decimal n) = false.
Proof.
  unfold decimal. pose proof (to_uint_nonnil n) as H.
  destruct (Nat.to_uint n); [congruence | reflexivity..].
Qed.

(** A string that starts with a digit has no sign and no white space to
    skip. *)
Lemma int_of_digits (s : string) (v : Z) :
  all_chars is_digit s = true ->
  Py.int_digits 0 false s = Some (v, EmptyString) ->
  Py.int s = Some v.
Proof.
  unfold Py.int. destruct s as [|c t]; [discriminate|].
  unfold all_chars. simpl forallb. intros Hd. apply andb_true_iff in Hd as [Hc _].
  assert (Hs : Py.skip_int_space (String c t) = String c t).
  { simpl. replace (Py.int_space c) with false; [reflexivity|].
    revert Hc. destruct c as [[] [] [] [] [] [] [] []]; vm_compute;
      first [reflexivity | discriminate]. }
  rewrite Hs. intros Hi.
  assert (Hm : match String c t with
               | String "-"%char t0 => (true, t0)
               | String "+"%char t0 => (false, t0)
               | _ => (false, String c t)
               end = (false, String c t)).
  { revert Hc. destruct c as [[] [] [] [] [] [] [] []]; vm_compute;
      first [reflexivity | discriminate]. }
  rewrite Hm, Hi. reflexivity.
Qed.

Lemma int_decimal (n : nat) : Py.int (decimal n) = Some (Z.of_nat n).
Proof.
  apply int_of_digits; [apply decimal_digits|].
  unfold decimal.
  pose proof (int_digits_decimal (Nat.to_uint n) 0 false) as H.
  change (Z.of_nat 0) with 0%Z in H.
  change (Nat.of_uint_acc (Nat.to_uint n) 0) with (Nat.of_uint (Nat.to_uint n)) in H.
  rewrite DecimalNat.Unsigned.of_to in H. apply H.
  intros E. destruct (to_uint_nonnil n E).
Qed.

Lemma int_blanks (k : nat) (s : string) :
  Py.int (blanks k ++ s)%string = Py.int s.
Proof.
  unfold Py.int.
  assert (H : Py.skip_int_space (blanks k ++ s)%string = Py.skip_int_space s).
  { induction k as [|k IH]; [reflexivity | exact IH]. }
  rewrite H. reflexivity.
Qed.

Lemma header_fields (name : string) (k n : nat) :
  Py.lower name = "content-length" ->
  is_header (write_header name k n) = true
  /\ chunk_size (write_header name k n) = inr (Z.of_nat n).
Proof.
  intros Hname. unfold write_header. split.
  - unfold is_header. rewrite lower_app, Hname.
    exact (prefix_refl_app "content-length:" (Py.lower (blanks k ++ decimal n))).
  - unfold chunk_size.
    change (name ++ ":" ++ blanks k ++ decimal n)%string
      with (name ++ String ":" (blanks k ++ decimal n))%string.
    rewrite split_app.
    + rewrite split_no_sep.
      * cbn [lookup list_lookup]. rewrite int_blanks, int_decimal. reflexivity.
      * rewrite all_chars_app, blanks_not_char by reflexivity.
        apply (all_chars_weaken is_digit), decimal_digits.
        apply (digit_not_char ":"). reflexivity.
    + rewrite <- (lower_all_chars _ _ lower_not_colon), Hname. reflexivity.
Qed.

(** X10.  A header line written as the name Content-Length in any letter
    case, a colon, any number of blanks and a count in decimal is taken for
    a header by [event_stream], and the count read from it is the count
    written (a count of up to 4300 digits, which is what [int] takes). *)
Theorem written_header_read (name : string) (k n : nat) :
  Py.lower name = "content-length" ->
  within_int_limit n ->
  is_header (write_header name k n) = true
  /\ chunk_size (write_header name k n) = inr (Z.of_nat n).
Proof. intros Hname _. apply header_fields, Hname. Qed.

Lemma written_header_read_witness :
  Py.lower "CONTENT-length" = "content-length"
  /\ within_int_limit 120
  /\ is_header (write_header "CONTENT-length" 2 120) = true
  /\ chunk_size (write_header "CONTENT-length" 2 120) = inr 120%Z.
Proof.
  assert (H : within_int_limit 120) by reflexivity.
  split; [reflexivity|]. split; [exact H|].
  apply (written_header_read "CONTENT-length" 2 120 eq_refl H).
Defined.

(** ** Chunks written and read back *)

Lemma name_first (name t : string) :
  Py.lower name = "content-length" ->
  Py.lstrip (name ++ t)%string = (name ++ t)%string.
Proof.
  destruct name as [|c name']; [discriminate|].
  simpl. intros H. injection H as Hc _.
  replace (Py.isspace c) with false; [reflexivity|].
  revert Hc. destruct c as [[] [] [] [] [] [] [] []]; vm_compute;
    first [reflexivity | discriminate].
Qed.

(** The frame reader hands a written header line over as it is. *)
Lemma strip_written (name : string) (k n : nat) :
  Py.lower name = "content-length" ->
  Py.strip (write_header name k n) = write_header name k n.
Proof.
  intros Hname. unfold Py.strip, write_header.
  rewrite name_first by exact Hname.
  replace (name ++ ":" ++ blanks k ++ decimal n)%string
    with ((name ++ ":" ++ blanks k) ++ decimal n)%string.
  - apply rstrip_app; [|apply decimal_nonempty].
    apply (all_chars_weaken is_digit), decimal_digits. apply digit_not_space.
  - rewrite !append_assoc. reflexivity.
Qed.

Lemma crlf_free_not_cr (s : string) :
  all_chars (not_char Py.CR) s = true -> crlf_free (wire s).
Proof.
  unfold crlf_free, wire, all_chars. induction s as [|c s IH]; [reflexivity|].
  simpl. intros H. apply andb_true_iff in H as [Hc Hs].
  destruct (list_ascii_of_string s) eqn:E; [reflexivity|].
  unfold not_char in Hc. destruct (Ascii.eqb c Py.CR); [discriminate|].
  simpl. apply IH, Hs.
Qed.

(** The frame reader hands a written header line over as it is. *)
Lemma written_header_framed (name : string) (k n : nat) :
  Py.lower name = "content-length" ->
  crlf_free (wire (write_header name k n))
  /\ line_of (wire (write_header name k n)) = write_header name k n.
Proof.
  intros Hname. split.
  - apply crlf_free_not_cr. unfold write_header.
    rewrite !all_chars_app, blanks_not_char by reflexivity.
    rewrite <- (lower_all_chars _ _ lower_not_cr), Hname.
    rewrite (all_chars_weaken is_digit (not_char Py.CR) _
               (digit_not_char Py.CR eq_refl) (decimal_digits n)).
    reflexivity.
  - rewrite line_of_strip. unfold wire.
    rewrite string_of_list_ascii_of_string. apply strip_written, Hname.
Qed.

Lemma written_header_line (name : string) (k n : nat) :
  Py.lower name = "content-length" -> (0 < n)%nat ->
  header_line (wire (write_header name k n)) (Z.of_nat n).
Proof.
  intros Hname Hn.
  destruct (written_header_framed name k n Hname) as [Hfree Hline].
  destruct (header_fields name k n Hname) as [H1 H2].
  unfold header_line. rewrite Hline.
  split; [exact Hfree | split; [exact H1 | split; [exact H2 | lia]]].
Qed.

(** ** C4: the payload is read by count *)




Lemma written_chunk_wf (name : string) (k : nat) (p : string) :
  Py.lower name = "content-length" -> Py.is_empty p = false ->
  wf_chunk (written_chunk name k p).
Proof.
  intros Hname Hp. split; [constructor|].
  apply written_header_line; [exact Hname|].
  destruct p; [discriminate | simpl; lia].
Qed.

Lemma wire_written_chunks (name : string) (k : nat) (ps : list string) :
  wire (write_chunks name k ps)
  = wire_chunks (map (written_chunk name k) ps) [].
Proof.
  induction ps as [|p ps IH]; [reflexivity|].
  cbn [write_chunks map wire_chunks]. rewrite <- IH.
  unfold wire_chunk, written_chunk, write_chunk. cbn [noise header payload frame].
  rewrite !wire_app, <- !app_assoc. reflexivity.
Qed.

(** X11.  Round trip of the stream: when a body is a series of chunks, each
    written as a header line with the length of its payload, CR LF and the
    payload, [event_stream] yields the payloads as they were written, in
    order, and then ends.  The payloads are arbitrary texts (not empty):
    line ends and header-like text inside a payload are not interpreted. *)
Theorem written_chunks_read (name : string) (k : nat) (ps : list string)
    (enc : option string) :
  Py.lower name = "content-length" ->
  Forall sendable ps ->
  fst (nexts es_next (S (length ps))
         (event_stream (mkResponse (wire (write_chunks name k ps)) None enc [])))
  = map Yield ps ++ [StopIteration].
Proof.
  intros Hname Hps. rewrite wire_written_chunks.
  set (cs := map (written_chunk name k) ps).
  set (ret := mkResponse (wire_chunks cs []) None enc []).
  assert (Hcs : Forall wf_chunk cs).
  { apply Forall_map. eapply Forall_impl; [exact Hps|].
    intros p [Hp _]. apply written_chunk_wf; assumption. }
  pose proof (es_nexts_chunks None (encoding (es_enter ret)) [] [] cs
                Hcs (Forall_nil_2 _) eq_refl (event_stream ret) [OpOpen]
                (es_live_start ret) eq_refl) as H.
  unfold cs in H at 1. rewrite length_map in H. rewrite H.
  cbn [fst]. unfold cs. rewrite map_map. reflexivity.
Qed.

Lemma written_chunks_read_witness :
  Forall sendable [start_text; nested_text]
  /\ fst (nexts es_next 3
            (event_stream
               (mkResponse
                  (wire (write_chunks "Content-LENGTH" 1 [start_text; nested_text]))
                  None None [])))
     = [Yield start_text; Yield nested_text; StopIteration].
Proof.
  assert (H : Forall sendable [start_text; nested_text]).
  { repeat first [apply Forall_cons_2 | apply Forall_nil_2];
      split; reflexivity. }
  split; [exact H|].
  apply (written_chunks_read "Content-LENGTH" 1 [start_text; nested_text] None
           eq_refl H).
Defined.

(** ** Payload texts written and read back *)

Lemma rmatch_star {A : Type} (g : bool) (a : Re.regex) (s : list ascii)
    (c : Re.caps) (k : list ascii -> Re.caps -> option A) :
  Re.rmatch (Re.Star g a) s c k = star_loop g a k (length s) s c.
Proof. reflexivity. Qed.

(** A lazy repetition of a class runs over the characters at which the
    continuation fails and stops where it first succeeds. *)
Lemma star_lazy_skip {A : Type} (p : ascii -> bool)
    (k : list ascii -> Re.caps -> option A) (u rest : list ascii)
    (c : Re.caps) (x : A) :
  Forall (fun b => p b = true /\ forall t, k (b :: t) c = None) u ->
  k rest c = Some x ->
  forall n, (length (u ++ rest) <= n)%nat ->
    star_loop false (Re.Chr p) k n (u ++ rest) c = Some x.
Proof.
  intros Hu Hk. induction Hu as [|b u [Hb Hf] _ IH]; intros n Hn.
  - destruct n as [|n]; simpl; rewrite Hk; reflexivity.
  - destruct n as [|n]; [simpl in Hn; lia|].
    cbn [star_loop app]. rewrite Hf. cbn [Re.rmatch]. rewrite Hb.
    replace (length (u ++ rest) <? length (b :: u ++ rest))%nat with true
      by (symmetry; apply Nat.ltb_lt; simpl; lia).
    apply IH. simpl in Hn. lia.
Qed.

(** A group of one or more characters of a class, lazy: it takes the
    first character and then as few as the continuation allows. *)
Lemma group_plus_lazy {A : Type} (i : nat) (p : ascii -> bool)
    (k : list ascii -> Re.caps -> option A) (a : ascii) (u rest : list ascii)
    (c : Re.caps) (x : A) :
  p a = true ->
  Forall (fun b => p b = true /\ forall t c', k (b :: t) c' = None) u ->
  k rest ((i, a :: u) :: c) = Some x ->
  Re.rmatch (Re.Group i (Re.Plus false (Re.Chr p))) (a :: u ++ rest) c k
  = Some x.
Proof.
  intros Ha Hu Hk.
  change (Re.rmatch (Re.Group i (Re.Plus false (Re.Chr p))) (a :: u ++ rest) c k)
    with (if p a
          then star_loop false (Re.Chr p)
                 (fun s' c' =>
                    k s' ((i, firstn (length (a :: u ++ rest) - length s')
                                (a :: u ++ rest)) :: c'))
                 (length (u ++ rest)) (u ++ rest) c
          else None).
  rewrite Ha. apply star_lazy_skip; [| |lia].
  - eapply Forall_impl; [exact Hu|]. intros b [Hb Hf]. split; [exact Hb|].
    intros t. apply Hf.
  - replace (length (a :: u ++ rest) - length rest)%nat with (length (a :: u))
      by (simpl; rewrite length_app; lia).
    change (a :: u ++ rest) with ((a :: u) ++ rest).
    rewrite take_app_length. exact Hk.
Qed.

Lemma key_char_spec (b : ascii) :
  key_char b = true ->
  not_char Py.LF b = true /\ Ascii.eqb "=" b = false.
Proof.
  unfold key_char, not_char. rewrite (Ascii.eqb_sym "=" b).
  destruct (Ascii.eqb b "="), (Ascii.eqb b Py.LF); simpl; intros H;
    try discriminate; split; reflexivity.
Qed.

Lemma value_char_spec (b : ascii) :
  value_char b = true ->
  not_char Py.LF b = true /\ Ascii.eqb ";" b = false
  /\ Ascii.eqb b Py.LF = false.
Proof.
  unfold value_char, not_char. rewrite (Ascii.eqb_sym ";" b).
  destruct (Ascii.eqb b ";"), (Ascii.eqb b Py.LF); simpl; intros H;
    try discriminate; repeat split; reflexivity.
Qed.

(** One key=value pair at the head of the subject, before a semicolon or
    the end. *)
Lemma kv_match (k0 : ascii) (ku : list ascii) (v0 : ascii) (vu : list ascii)
    (tail tail' : list ascii) :
  forallb key_char (k0 :: ku) = true ->
  forallb value_char (v0 :: vu) = true ->
  (tail = [] /\ tail' = []) \/ tail = ";"%char :: tail' ->
  Re.match_at _REG_PARSE_KEY_VALUE
    ((k0 :: ku ++ "="%char :: v0 :: vu) ++ tail)
  = Some (tail', kv_caps (k0 :: ku) (v0 :: vu)).
Proof.
  intros Hk Hv Ht.
  apply forallb_Forall in Hk, Hv.
  apply Forall_cons in Hk as [Hk0 Hku]. apply Forall_cons in Hv as [Hv0 Hvu].
  destruct (key_char_spec k0 Hk0) as [Hd0 _].
  destruct (value_char_spec v0 Hv0) as [He0 _].
  replace ((k0 :: ku ++ "="%char :: v0 :: vu) ++ tail)
    with (k0 :: ku ++ "="%char :: v0 :: vu ++ tail)
    by (repeat (rewrite <- app_assoc || simpl); reflexivity).
  unfold Re.match_at, _REG_PARSE_KEY_VALUE.
  set (K := fun (s' : list ascii) (c : Re.caps) => Some (s', c)).
  set (ALT := Re.Alt (Re.lit ";") Re.Eos).
  set (G2 := Re.Group 2 (Re.Plus false (Re.Chr (not_char Py.LF)))).
  apply (group_plus_lazy 1 (not_char Py.LF)
           (fun s' c' => Re.rmatch (Re.Seq (Re.lit "=") (Re.Seq G2 ALT)) s' c' K)
           k0 ku ("="%char :: v0 :: vu ++ tail) []).
  - exact Hd0.
  - eapply Forall_impl; [exact Hku|]. intros b Hb.
    destruct (key_char_spec b Hb) as [Hd He]. split; [exact Hd|].
    intros t c'. cbn [Re.rmatch Re.lit]. rewrite He. reflexivity.
  - change (Re.rmatch G2 (v0 :: vu ++ tail) [(1%nat, k0 :: ku)]
              (fun s' c' => Re.rmatch ALT s' c' K)
            = Some (tail', kv_caps (k0 :: ku) (v0 :: vu))).
    apply group_plus_lazy.
    + exact He0.
    + eapply Forall_impl; [exact Hvu|]. intros b Hb.
      destruct (value_char_spec b Hb) as (Hd & He & Hl). split; [exact Hd|].
      intros t c'. unfold ALT. cbn [Re.rmatch Re.lit]. rewrite He.
      destruct t; [rewrite Hl|]; reflexivity.
    + destruct Ht as [[-> ->] | ->]; reflexivity.
Qed.

(** The characters of a match are skipped by the scan. *)
Lemma scan_skip (r : Re.regex) (a b : list ascii) :
  Re.scan r (length a) (a ++ b) = Re.scan r 0 b.
Proof. induction a as [|x a IH]; [reflexivity | exact IH]. Qed.

Lemma scan_step (r : Re.regex) (x : ascii) (t rest : list ascii) (c : Re.caps) :
  Re.match_at r ((x :: t) ++ rest) = Some (rest, c) ->
  Re.scan r 0 ((x :: t) ++ rest) = c :: Re.scan r 0 rest.
Proof.
  intros H. cbn [Re.scan app] in *. rewrite H.
  replace (length (x :: t ++ rest) - length rest - 1)%nat with (length t)
    by (simpl; rewrite length_app; lia).
  rewrite scan_skip. reflexivity.
Qed.

Lemma clean_pair_spec (kv : string * string) :
  clean_pair kv = true ->
  exists k0 ku v0 vu,
    wire kv.1 = k0 :: ku /\ wire kv.2 = v0 :: vu
    /\ forallb key_char (k0 :: ku) = true
    /\ forallb value_char (v0 :: vu) = true.
Proof.
  unfold clean_pair. intros H.
  apply andb_true_iff in H as [H Hv]. apply andb_true_iff in H as [H Hve].
  apply andb_true_iff in H as [Hke Hk].
  apply negb_true_iff in Hke, Hve.
  destruct (wire_nonempty _ Hke) as (k0 & ku & Ek).
  destruct (wire_nonempty _ Hve) as (v0 & vu & Ev).
  exists k0, ku, v0, vu. unfold all_chars in Hk, Hv. fold (wire kv.1) in Hk.
  fold (wire kv.2) in Hv. rewrite Ek in Hk. rewrite Ev in Hv. auto.
Qed.

Lemma wire_render_pair (kv : string * string) :
  wire (render_pair kv) = wire kv.1 ++ "="%char :: wire kv.2.
Proof. unfold render_pair. rewrite wire_app. reflexivity. Qed.

Lemma scan_pairs (pairs : list (string * string)) :
  forallb clean_pair pairs = true ->
  Re.scan _REG_PARSE_KEY_VALUE 0 (wire (render_payload pairs))
  = map pair_caps pairs.
Proof.
  unfold render_payload.
  induction pairs as [|kv pairs IH]; [reflexivity|].
  cbn [forallb]. intros H. apply andb_true_iff in H as [Hkv Hps].
  destruct (clean_pair_spec kv Hkv) as (k0 & ku & v0 & vu & Ek & Ev & Hk & Hv).
  specialize (IH Hps). cbn [map]. unfold pair_caps at 1. rewrite Ek, Ev.
  destruct pairs as [|kv' pairs].
  - cbn [map PyStr.join]. rewrite wire_render_pair, Ek, Ev.
    pose proof (kv_match k0 ku v0 vu [] [] Hk Hv
                  (or_introl (conj eq_refl eq_refl))) as M.
    rewrite <- (app_nil_r ((k0 :: ku) ++ "="%char :: v0 :: vu)).
    change ((k0 :: ku) ++ "="%char :: v0 :: vu)
      with (k0 :: ku ++ "="%char :: v0 :: vu).
    rewrite (scan_step _ _ _ _ _ M). reflexivity.
  - set (rest := PyStr.join ";" (map render_pair (kv' :: pairs))) in *.
    change (PyStr.join ";" (render_pair kv :: map render_pair (kv' :: pairs)))
      with (render_pair kv ++ ";" ++ rest)%string.
    rewrite !wire_app, wire_render_pair, Ek, Ev.
    change (wire ";") with [";"%char].
    pose proof (kv_match k0 ku v0 vu (";"%char :: wire rest) (wire rest)
                  Hk Hv (or_intror eq_refl)) as M.
    replace (((k0 :: ku) ++ "="%char :: v0 :: vu) ++ [";"%char] ++ wire rest)
      with ((k0 :: ku ++ "="%char :: v0 :: vu ++ [";"%char]) ++ wire rest)
      by (repeat (rewrite <- app_assoc || simpl); reflexivity).
    replace ((k0 :: ku ++ "="%char :: v0 :: vu) ++ ";"%char :: wire rest)
      with ((k0 :: ku ++ "="%char :: v0 :: vu ++ [";"%char]) ++ wire rest) in M
      by (repeat (rewrite <- app_assoc || simpl); reflexivity).
    rewrite (scan_step _ _ _ _ _ M), IH. reflexivity.
Qed.

Lemma findall_pairs (pairs : list (string * string)) :
  forallb clean_pair pairs = true ->
  Re.findall2 _REG_PARSE_KEY_VALUE (render_payload pairs) = pairs.
Proof.
  intros H. unfold Re.findall2. fold (wire (render_payload pairs)).
  rewrite scan_pairs by exact H. rewrite map_map.
  rewrite <- (map_id pairs) at 2. apply map_ext. intros [k v].
  unfold pair_caps, kv_caps, wire. cbn [Re.group Nat.eqb fst snd].
  rewrite !string_of_list_ascii_of_string. reflexivity.
Qed.

Lemma render_pair_no_lf (kv : string * string) :
  clean_pair kv = true -> all_chars (not_char Py.LF) (render_pair kv) = true.
Proof.
  unfold clean_pair, render_pair. intros H.
  apply andb_true_iff in H as [H Hv]. apply andb_true_iff in H as [H _].
  apply andb_true_iff in H as [_ Hk].
  rewrite !all_chars_app.
  rewrite (all_chars_weaken _ (not_char Py.LF) _
             (fun c Hc => proj1 (key_char_spec c Hc)) Hk).
  rewrite (all_chars_weaken _ (not_char Py.LF) _
             (fun c Hc => proj1 (value_char_spec c Hc)) Hv).
  reflexivity.
Qed.

Lemma render_payload_no_lf (pairs : list (string * string)) :
  forallb clean_pair pairs = true ->
  all_chars (not_char Py.LF) (render_payload pairs) = true.
Proof.
  unfold render_payload. induction pairs as [|kv pairs IH]; [reflexivity|].
  cbn [forallb]. intros H. apply andb_true_iff in H as [Hkv Hps].
  specialize (IH Hps). destruct pairs as [|kv' pairs].
  - apply render_pair_no_lf, Hkv.
  - set (rest := PyStr.join ";" (map render_pair (kv' :: pairs))) in *.
    change (PyStr.join ";" (map render_pair (kv :: kv' :: pairs)))
      with (render_pair kv ++ ";" ++ rest)%string.
    rewrite !all_chars_app, IH, (render_pair_no_lf kv Hkv). reflexivity.
Qed.

(** X12.  Round trip of the key=value text: when pairs are written as
    key=value and joined by semicolons (a key not empty, without equals
    sign and line feed; a value not empty, without semicolon and line
    feed; no white space at either end of the text), [event_actions] reads
    exactly those pairs back, in order.  An equals sign inside a value and
    a semicolon inside a key do not split a pair. *)
Theorem written_pairs_read (pairs : list (string * string)) :
  forallb clean_pair pairs = true ->
  Py.strip (render_payload pairs) = render_payload pairs ->
  payload_pairs (render_payload pairs) = pairs.
Proof.
  intros H Hs. unfold payload_pairs.
  rewrite Hs, replace_absent by (apply render_payload_no_lf, H).
  apply findall_pairs, H.
Qed.

Lemma written_pairs_read_witness :
  forallb clean_pair motion_pairs = true
  /\ Py.strip (render_payload motion_pairs) = render_payload motion_pairs
  /\ payload_pairs (render_payload motion_pairs) = motion_pairs.
Proof.
  split; [reflexivity|]. split; [reflexivity|].
  apply (written_pairs_read motion_pairs); reflexivity.
Defined.

(** ** Data blobs written and read back *)

(** A greedy repetition of a class runs over the characters of the class
    when the continuation succeeds behind them. *)
Lemma star_greedy_skip {A : Type} (p : ascii -> bool)
    (k : list ascii -> Re.caps -> option A) (u rest : list ascii)
    (c : Re.caps) (x : A) :
  Forall (fun b => p b = true) u ->
  (forall n, star_loop true (Re.Chr p) k n rest c = Some x) ->
  forall n, (length (u ++ rest) <= n)%nat ->
    star_loop true (Re.Chr p) k n (u ++ rest) c = Some x.
Proof.
  intros Hu Hk. induction Hu as [|b u Hb _ IH]; intros n Hn.
  - apply Hk.
  - destruct n as [|n]; [simpl in Hn; lia|].
    cbn [star_loop app Re.rmatch]. rewrite Hb.
    replace (length (u ++ rest) <? length (b :: u ++ rest))%nat with true
      by (symmetry; apply Nat.ltb_lt; simpl; lia).
    rewrite IH by (simpl in Hn; lia). reflexivity.
Qed.

(** A greedy repetition whose body cannot start hands over at once. *)
Lemma star_greedy_stop {A : Type} (a : Re.regex)
    (k : list ascii -> Re.caps -> option A) (s : list ascii) (c : Re.caps) :
  (forall k', Re.rmatch a s c k' = @None A) ->
  forall n, star_loop true a k n s c = k s c.
Proof.
  intros Ha n. destruct n as [|n]; [reflexivity|].
  cbn [star_loop]. rewrite Ha. reflexivity.
Qed.

Lemma chr_stops {A : Type} (p : ascii -> bool) (rest : list ascii)
    (c : Re.caps) (k' : list ascii -> Re.caps -> option A) :
  class_stops p rest -> Re.rmatch (Re.Chr p) rest c k' = None.
Proof. destruct rest as [|b t]; simpl; [reflexivity | intros ->; reflexivity]. Qed.

Lemma star_greedy_class {A : Type} (p : ascii -> bool)
    (k : list ascii -> Re.caps -> option A) (u rest : list ascii)
    (c : Re.caps) (x : A) :
  Forall (fun b => p b = true) u -> class_stops p rest ->
  k rest c = Some x ->
  Re.rmatch (Re.Star true (Re.Chr p)) (u ++ rest) c k = Some x.
Proof.
  intros Hu Hs Hk. rewrite rmatch_star.
  apply star_greedy_skip; [exact Hu | | lia].
  intros n. rewrite star_greedy_stop; [exact Hk|].
  intros k'. apply chr_stops, Hs.
Qed.

(** A token of the blob in a capturing group: the quoted alternative ends
    at its closing quote, the bare one where its class stops. *)
Lemma token_match {A : Type} (i : nat) (t : token) (rest : list ascii)
    (c : Re.caps) (k : list ascii -> Re.caps -> option A) (x : A) :
  clean_token t = true -> token_stops t rest ->
  k rest ((i, token_chars t) :: c) = Some x ->
  Re.rmatch (Re.Group i json_token) (token_chars t ++ rest) c k = Some x.
Proof.
  intros Hc Hs Hk.
  set (kg := fun (s' : list ascii) (c' : Re.caps) =>
               k s' ((i, firstn (length (token_chars t ++ rest) - length s')
                           (token_chars t ++ rest)) :: c')).
  assert (Hkg : kg rest c = Some x).
  { unfold kg. rewrite length_app, Nat.add_sub, take_app_length. exact Hk. }
  change (Re.rmatch (Re.Group i json_token) (token_chars t ++ rest) c k)
    with (Re.rmatch json_token (token_chars t ++ rest) c kg).
  clearbody kg. clear Hk.
  destruct t as [s|s]; cbn [clean_token token_stops] in *.
  - assert (E : token_chars (Quoted s) ++ rest
                = Py.DQUOTE :: wire s ++ Py.DQUOTE :: rest).
    { unfold token_chars, token_text, q.
      change (wire (String Py.DQUOTE (s ++ String Py.DQUOTE EmptyString)))
        with (Py.DQUOTE :: wire (s ++ String Py.DQUOTE EmptyString)).
      rewrite wire_app. simpl. rewrite <- app_assoc. reflexivity. }
    rewrite E. unfold json_token.
    set (ESC := Re.Seq (Re.lit Py.BACKSLASH)
                  (Re.Seq Re.dot (Re.Star true (Re.Chr not_quote_backslash)))).
    set (A2 := Re.Plus true (Re.Chr not_space_quote)).
    assert (H1 : Re.rmatch
                   (Re.Seq (Re.lit Py.DQUOTE)
                      (Re.Seq (Re.Star true (Re.Chr not_quote_backslash))
                         (Re.Seq (Re.Star true ESC) (Re.lit Py.DQUOTE))))
                   (Py.DQUOTE :: wire s ++ Py.DQUOTE :: rest) c kg = Some x).
    { change (Re.rmatch (Re.Star true (Re.Chr not_quote_backslash))
                (wire s ++ Py.DQUOTE :: rest) c
                (fun s' c' =>
                   Re.rmatch (Re.Seq (Re.Star true ESC) (Re.lit Py.DQUOTE))
                     s' c' kg) = Some x).
      apply star_greedy_class.
      - apply forallb_Forall. exact Hc.
      - reflexivity.
      - change (star_loop true ESC
                  (fun s' c' => Re.rmatch (Re.lit Py.DQUOTE) s' c' kg)
                  (length (Py.DQUOTE :: rest)) (Py.DQUOTE :: rest) c = Some x).
        rewrite star_greedy_stop; [exact Hkg|].
        intros k'. reflexivity. }
    cbn [Re.rmatch]. cbn [Re.rmatch] in H1. rewrite H1. reflexivity.
  - apply andb_true_iff in Hc as [He Hc]. apply negb_true_iff in He.
    destruct (wire_nonempty s He) as (b0 & bu & E).
    unfold token_chars, token_text. rewrite E.
    unfold all_chars in Hc. fold (wire s) in Hc. rewrite E in Hc.
    apply forallb_Forall in Hc. apply Forall_cons in Hc as [Hb0 Hbu].
    assert (Hq : Ascii.eqb Py.DQUOTE b0 = false).
    { unfold not_space_quote in Hb0. apply andb_true_iff in Hb0 as [_ Hb0].
      apply negb_true_iff in Hb0. rewrite Ascii.eqb_sym. exact Hb0. }
    assert (H2 : Re.rmatch (Re.Star true (Re.Chr not_space_quote))
                   (bu ++ rest) c kg = Some x).
    { apply star_greedy_class; assumption. }
    unfold json_token. cbn [Re.rmatch Re.lit Re.Plus app].
    cbn [Re.rmatch] in H2.
    rewrite Hq, Hb0. exact H2.
Qed.

(** One entry at the head of the subject. *)
Lemma entry_match (e : token * token) (rest : list ascii) :
  clean_entry e = true -> token_stops e.2 rest ->
  Re.match_at _REG_PARSE_MALFORMED_JSON (entry_chars e ++ rest)
  = Some (rest, entry_caps e).
Proof.
  intros Hc Hs. apply andb_true_iff in Hc as [Hk Hv].
  unfold Re.match_at, _REG_PARSE_MALFORMED_JSON, entry_chars.
  rewrite <- app_assoc.
  set (K := fun (s' : list ascii) (c : Re.caps) => Some (s', c)).
  apply (token_match 1 e.1 _ []
           (fun s' c' =>
              Re.rmatch
                (Re.Seq (Re.Chr Py.isspace)
                   (Re.Seq (Re.lit ":")
                      (Re.Seq (Re.Chr Py.isspace) (Re.Group 2 json_token))))
                s' c' K)).
  - exact Hk.
  - destruct e.1; [exact I | reflexivity].
  - change (Re.rmatch (Re.Group 2 json_token) (token_chars e.2 ++ rest)
              [(1%nat, token_chars e.1)] K = Some (rest, entry_caps e)).
    apply token_match; [exact Hv | exact Hs | reflexivity].
Qed.

Lemma token_chars_nonempty (t : token) :
  clean_token t = true -> exists a l, token_chars t = a :: l.
Proof.
  destruct t as [s|s]; cbn [clean_token]; intros H.
  - eexists _, _. reflexivity.
  - apply andb_true_iff in H as [He _]. apply negb_true_iff in He.
    apply wire_nonempty, He.
Qed.

Lemma wire_render_entry (e : token * token) :
  wire (render_entry e) = entry_chars e.
Proof.
  unfold render_entry, entry_chars, token_chars. rewrite !wire_app. reflexivity.
Qed.

Lemma scan_entries (entries : list (token * token)) :
  forallb clean_entry entries = true ->
  Re.scan _REG_PARSE_MALFORMED_JSON 0 (wire (render_data entries))
  = map entry_caps entries.
Proof.
  unfold render_data.
  induction entries as [|e entries IH]; [reflexivity|].
  cbn [forallb]. intros H. apply andb_true_iff in H as [He Hes].
  specialize (IH Hes). cbn [map].
  assert (Hne : exists a l, entry_chars e = a :: l).
  { apply andb_true_iff in He as [Hk _].
    destruct (token_chars_nonempty _ Hk) as (a & l & E).
    unfold entry_chars. rewrite E. eexists _, _. reflexivity. }
  destruct Hne as (a & l & E).
  destruct entries as [|e' entries].
  - cbn [map PyStr.join]. rewrite wire_render_entry.
    pose proof (entry_match e [] He) as M.
    rewrite <- (app_nil_r (entry_chars e)). rewrite E in *.
    rewrite (scan_step _ a l [] (entry_caps e)); [reflexivity|].
    apply M. destruct e.2; exact I.
  - set (rest := PyStr.join " " (map render_entry (e' :: entries))) in *.
    change (PyStr.join " " (render_entry e :: map render_entry (e' :: entries)))
      with (render_entry e ++ " " ++ rest)%string.
    rewrite !wire_app, wire_render_entry.
    change (wire " ") with [" "%char].
    pose proof (entry_match e ([" "%char] ++ wire rest) He) as M.
    rewrite E in *.
    rewrite (scan_step _ a l _ (entry_caps e));
      [|apply M; destruct e.2; [exact I | reflexivity]].
    cbn [app Re.scan].
    replace (Re.match_at _REG_PARSE_MALFORMED_JSON (" "%char :: wire rest))
      with (@None (list ascii * Re.caps)) by reflexivity.
    rewrite IH. reflexivity.
Qed.

Lemma findall_entries (entries : list (token * token)) :
  forallb clean_entry entries = true ->
  Re.findall2 _REG_PARSE_MALFORMED_JSON (render_data entries)
  = map entry_texts entries.
Proof.
  intros H. unfold Re.findall2. fold (wire (render_data entries)).
  rewrite scan_entries by exact H. rewrite map_map.
  apply map_ext. intros [k v].
  unfold entry_caps, entry_texts, kv_caps, token_chars, wire.
  cbn [Re.group Nat.eqb fst snd].
  rewrite !string_of_list_ascii_of_string. reflexivity.
Qed.

(** Removing the quotes of a written token gives what it stands for. *)
Lemma unquote_token (t : token) :
  clean_token t = true -> unquote (token_text t) = token_value t.
Proof.
  unfold unquote. destruct t as [s|s]; cbn [clean_token token_text token_value].
  - intros H. unfold q.
    change (String Py.DQUOTE (s ++ String Py.DQUOTE EmptyString))
      with (String Py.DQUOTE EmptyString ++ s ++ String Py.DQUOTE EmptyString)%string.
    rewrite !replace_app.
    rewrite (replace_absent Py.DQUOTE EmptyString s).
    + change (Py.replace Py.DQUOTE EmptyString (String Py.DQUOTE EmptyString))
        with EmptyString.
      cbn [String.append]. clear H.
      induction s as [|x s IH]; [reflexivity | exact (f_equal (String x) IH)].
    + eapply all_chars_weaken; [|exact H].
      intros c Hc. unfold not_quote_backslash in Hc.
      apply andb_true_iff in Hc as [Hc _]. exact Hc.
  - intros H. apply andb_true_iff in H as [_ H].
    apply replace_absent. eapply all_chars_weaken; [|exact H].
    intros c Hc. unfold not_space_quote in Hc.
    apply andb_true_iff in Hc as [_ Hc]. exact Hc.
Qed.

(** X13.  Round trip of the data blob: when entries are written as
    KEY, blank, colon, blank, VALUE and joined by one blank, each KEY and
    VALUE either between double quotes (any text without quote and
    backslash, also empty or with blanks and colons) or bare (not empty,
    without white space and quote), the mapping built for the key data
    holds exactly the entries written, quotes removed, a later entry
    replacing an earlier one with the same key. *)
Theorem written_data_read (entries : list (token * token)) :
  forallb clean_entry entries = true ->
  parse_data (render_data entries) = foldl entry_insert ∅ entries.
Proof.
  intros H. unfold parse_data. rewrite findall_entries by exact H.
  generalize (∅ : gmap string string) as d.
  induction entries as [|e entries IH]; intros d; [reflexivity|].
  cbn [forallb] in H. apply andb_true_iff in H as [He Hes].
  apply andb_true_iff in He as [Hk Hv].
  cbn [map foldl]. rewrite (IH Hes). f_equal.
  unfold data_insert, entry_insert, entry_texts. cbn [fst snd].
  rewrite !unquote_token by assumption. reflexivity.
Qed.

Lemma written_data_read_witness :
  forallb clean_entry sample_entries = true
  /\ parse_data (render_data sample_entries) !! "Name" = Some "two words"
  /\ parse_data (render_data sample_entries) !! "Object[0]" = Some "1".
Proof.
  split; [reflexivity|].
  rewrite (written_data_read sample_entries eq_refl).
  split; vm_compute; reflexivity.
Defined.

(** ** The request of [event_stream] *)

Lemma split_join (sep : ascii) (l : list string) :
  l <> [] -> forallb (all_chars (not_char sep)) l = true ->
  Py.split sep (PyStr.join (String sep EmptyString) l) = l.
Proof.
  induction l as [|a l IH]; [congruence|]. intros _ H.
  cbn [forallb] in H. apply andb_true_iff in H as [Ha Hl].
  destruct l as [|b l].
  - apply split_no_sep, Ha.
  - change (PyStr.join (String sep EmptyString) (a :: b :: l))
      with (a ++ String sep (PyStr.join (String sep EmptyString) (b :: l)))%string.
    rewrite split_app by exact Ha.
    rewrite IH; [reflexivity | discriminate | exact Hl].
Qed.

(** X14.  The request [event_stream] sends determines the event codes it
    was called with: two lists of codes (each with at least one code, no
    code with a comma) that give the same request are equal.  (Without a
    code and with the one empty code the request is the same.) *)
Theorem attach_path_injective (a b : list string) :
  plain_codes a = true -> plain_codes b = true ->
  attach_path a = attach_path b -> a = b.
Proof.
  unfold plain_codes, attach_path. intros Ha Hb H.
  apply andb_true_iff in Ha as [Ha1 Ha2]. apply andb_true_iff in Hb as [Hb1 Hb2].
  apply negb_true_iff, bool_decide_eq_false in Ha1, Hb1.
  apply (f_equal list_ascii_of_string) in H.
  fold (wire ("eventManager.cgi?action=attach&codes=[" ++ attach_codes a ++ "]")) in H.
  fold (wire ("eventManager.cgi?action=attach&codes=[" ++ attach_codes b ++ "]")) in H.
  rewrite !(wire_app "eventManager.cgi?action=attach&codes=[") in H.
  apply app_inv_head in H.
  apply (f_equal string_of_list_ascii) in H. unfold wire in H.
  rewrite !string_of_list_ascii_of_string in H.
  apply append_inv_tail in H. unfold attach_codes in H.
  rewrite <- (split_join "," a Ha1 Ha2), <- (split_join "," b Hb1 Hb2), H.
  reflexivity.
Qed.

Lemma attach_path_injective_witness :
  plain_codes sample_codes = true
  /\ sample_codes = Py.split "," "VideoMotion,AlarmLocal".
Proof.
  split; [reflexivity|].
  apply (attach_path_injective sample_codes
           (Py.split "," "VideoMotion,AlarmLocal"));
    reflexivity.
Defined.

(** ** The encoding of the response *)

Lemma read_sized_encoding (n : Z) (ret ret' : Response) (o : outcome string) :
  read_sized n ret = (o, ret') -> encoding ret' = encoding ret.
Proof.
  unfold read_sized. destruct (n =? 0)%Z; [intros [= <- <-]; reflexivity|].
  destruct ((0 <? n)%Z && (Z.to_nat n <=? length (raw ret))%nat);
    [intros [= <- <-]; reflexivity|].
  destruct (fault ret), (raw ret); intros [= <- <-]; reflexivity.
Qed.

Lemma es_chunk_encoding (l : string) (el el' : el_state) (ret ret' : Response)
    (o : outcome string) :
  es_chunk l el ret = (o, el', ret') -> encoding ret' = encoding ret.
Proof.
  unfold es_chunk. destruct (chunk_size l) as [e|n];
    [intros [= <- <- <-]; reflexivity|].
  destruct (read_sized n ret) as [o1 ret1] eqn:E.
  apply read_sized_encoding in E.
  destruct o1; intros [= <- <- <-]; exact E.
Qed.

Lemma es_loop_encoding f enc (line body : list ascii) (tr : list op)
    (o : outcome string) (el : el_state) (ret : Response) :
  es_loop f enc line body tr = (o, el, ret) -> encoding ret = enc.
Proof.
  revert line tr. induction body as [|c rest IH]; intros line tr.
  - simpl. destruct f; intros [= <- <- <-]; reflexivity.
  - simpl. destruct (el_step line c) as [line' [l|]]; [|apply IH].
    destruct (is_header l); [|apply IH].
    intros H. apply es_chunk_encoding in H. exact H.
Qed.

Lemma es_exit_encoding (r : outcome string * el_state * Response) :
  encoding (es_ret (snd (es_exit r))) = encoding (snd r)
  /\ es_pc_of (snd (es_exit r)) <> EsStart.
Proof. destruct r as [[[x| |e] el] ret]; split; (reflexivity || discriminate). Qed.

Lemma encoding_settled_next (ret : Response) (st : es_state) :
  encoding_settled ret st -> encoding_settled ret (snd (es_next st)).
Proof.
  intros H. unfold es_next, es_for.
  destruct (es_pc_of st) eqn:Hpc.
  - right. destruct H as [[-> _] | [_ H]]; [|congruence].
    destruct (el_pc_of (es_lines st));
      try (destruct (es_loop _ _ _ _ _) as [[o1 el1] ret1] eqn:E;
           apply es_loop_encoding in E;
           destruct (es_exit_encoding (o1, el1, ret1)) as [H1 H2];
           split; [|exact H2]; rewrite H1; cbn [snd]; rewrite E;
           unfold es_enter, reading_encoding; cbn [encoding];
           destruct (encoding ret); reflexivity).
    intros; split; [|discriminate].
    unfold es_enter, reading_encoding; cbn; destruct (encoding ret); reflexivity.
  - right. destruct H as [[_ H] | [H _]]; [congruence|].
    destruct (el_pc_of (es_lines st));
      try (destruct (es_loop _ _ _ _ _) as [[o1 el1] ret1] eqn:E;
           apply es_loop_encoding in E;
           destruct (es_exit_encoding (o1, el1, ret1)) as [H1 H2];
           split; [rewrite H1; cbn [snd]; rewrite E; exact H | exact H2]).
    split; [exact H | discriminate].
  - exact H.
Qed.

Lemma encoding_settled_close (ret : Response) (st : es_state) :
  encoding_settled ret st -> encoding_settled ret (es_close st).
Proof.
  intros H. unfold es_close. destruct (es_pc_of st) eqn:Hpc.
  - destruct H as [[H _] | [_ H]]; [|congruence].
    left. split; [exact H | discriminate].
  - destruct H as [[_ H] | [H _]]; [congruence|].
    right. split; [exact H | discriminate].
  - exact H.
Qed.

Lemma encoding_settled_run (ret : Response) (acts : list action)
    (st : es_state) :
  encoding_settled ret st -> encoding_settled ret (es_run acts st).
Proof.
  revert st. induction acts as [|a acts IH]; intros st H; [exact H|].
  simpl. apply IH.
  destruct a; [apply encoding_settled_next | apply encoding_settled_close];
    exact H.
Qed.

(** X15.  Whatever a consumer does with [event_stream] (any sequence of
    [next] and [close]), the response is either the one the request is
    going to return, untouched and not being read, or its encoding is set:
    to the encoding it declared, to utf-8 when it declared none.  A
    declared encoding is never replaced, and nothing resets the encoding
    afterwards. *)
Theorem encoding_defaulted (ret : Response) (acts : list action) :
  let st := es_run acts (event_stream ret) in
  encoding_settled ret st
  /\ (forall e, encoding ret = Some e -> encoding (es_ret st) = Some e).
Proof.
  intros st.
  assert (H : encoding_settled ret st).
  { apply encoding_settled_run. left. split; [reflexivity | discriminate]. }
  split; [exact H|].
  intros e He. destruct H as [[-> _] | [H _]]; [exact He|].
  rewrite H. unfold reading_encoding. rewrite He. reflexivity.
Qed.
